(** * A verification development for the [@justkd/roll] numeric core

    Shallow embedding of the TypeScript sources [src/src/roll/Uniform.ts],
    [src/src/roll/History.ts], [src/src/roll/Roll.ts],
    [src/src/lib/ElemStats.ts] (which also holds [Scaled]), the compiled
    [Gaussian.js] and the compiled [Roll] of [publish/lib].

    JavaScript numbers are IEEE-754 binary64 values.  They are modelled
    exactly: a finite number is the rational it denotes, and every
    arithmetic operation rounds its exact result to the nearest double
    (ties to even), as IEEE-754 prescribes.  Negative zero is not
    distinguished from zero; none of the modelled code observes the sign
    of a zero (its string form is ["0"] either way). *)

From Stdlib Require Import ZArith QArith Qround Qabs Lia List Ascii String Bool Sorted.
From Stdlib Require Streams.
Import ListNotations.

Local Open Scope Z_scope.

Module JS.

(** ** Numbers *)

Inductive num : Type :=
| Fin (q : Q)
| NaN
| PInf
| NInf.

Definition Qlt_bool (a b : Q) : bool := negb (Qle_bool b a).

Definition two_pow_Q (e : Z) : Q :=
  if e >=? 0 then inject_Z (2 ^ e) else 1 # Z.to_pos (2 ^ (- e)).

Definition p10 (k : Z) : Q :=
  if k >=? 0 then inject_Z (10 ^ k) else 1 # Z.to_pos (10 ^ (- k)).

(** [flog2 A B] is [floor (log2 (A / B))] for [A, B > 0]. *)
Definition flog2 (A B : Z) : Z :=
  let t := Z.log2 A - Z.log2 B in
  if t >=? 0 then (if B * 2 ^ t <=? A then t else t - 1)
  else (if B <=? A * 2 ^ (- t) then t else t - 1).

(** Round-to-nearest, ties-to-even, of a positive rational [A / B] to a
    binary64 significand [m] and exponent [e] (value [m * 2^e]). *)
Definition round_mag (A B : Z) : Z * Z :=
  let e := Z.max (flog2 A B - 52) (-1074) in
  let nn := if e >=? 0 then A else A * 2 ^ (- e) in
  let dd := if e >=? 0 then B * 2 ^ e else B in
  let m0 := nn / dd in
  let r := nn mod dd in
  let m := if dd <? 2 * r then m0 + 1
           else if 2 * r =? dd then (if Z.odd m0 then m0 + 1 else m0)
           else m0 in
  (m, e).

(** The double nearest to an exact rational. *)
Definition round_double (q : Q) : num :=
  let A := Z.abs (Qnum q) in
  let B := Zpos (Qden q) in
  if A =? 0 then Fin 0 else
  let '(m, e) := round_mag A B in
  if (e >=? 0) && (2 ^ 1024 <=? m * 2 ^ e) then
    (if Qnum q <? 0 then NInf else PInf)
  else
    let mag := Qred (inject_Z m * two_pow_Q e)%Q in
    if Qnum q <? 0 then Fin (- mag)%Q else Fin mag.

Definition of_Z (z : Z) : num := round_double (inject_Z z).

Definition num_eqb (x y : num) : bool :=
  match x, y with
  | Fin a, Fin b => Qeq_bool a b
  | PInf, PInf | NInf, NInf => true
  | _, _ => false
  end.

(** [x === y] (so [NaN === NaN] is false). *)
Definition strict_eq (x y : num) : bool :=
  match x, y with
  | NaN, _ | _, NaN => false
  | _, _ => num_eqb x y
  end.

Definition is_nan (x : num) : bool :=
  match x with NaN => true | _ => false end.

(** [!x] for a number: true on [0] and [NaN]. *)
Definition falsy (x : num) : bool :=
  match x with Fin q => Qeq_bool q 0 | NaN => true | _ => false end.

Definition js_neg (x : num) : num :=
  match x with
  | Fin q => Fin (- q)%Q | NaN => NaN | PInf => NInf | NInf => PInf
  end.

Definition js_add (x y : num) : num :=
  match x, y with
  | Fin a, Fin b => round_double (a + b)%Q
  | NaN, _ | _, NaN => NaN
  | PInf, NInf | NInf, PInf => NaN
  | PInf, _ | _, PInf => PInf
  | NInf, _ | _, NInf => NInf
  end.

Definition js_sub (x y : num) : num := js_add x (js_neg y).

Definition sgn_inf (positive : bool) : num := if positive then PInf else NInf.

Definition js_mul (x y : num) : num :=
  match x, y with
  | Fin a, Fin b => round_double (a * b)%Q
  | NaN, _ | _, NaN => NaN
  | Fin a, PInf | PInf, Fin a =>
      if Qeq_bool a 0 then NaN else sgn_inf (Qlt_bool 0 a)
  | Fin a, NInf | NInf, Fin a =>
      if Qeq_bool a 0 then NaN else sgn_inf (Qlt_bool a 0)
  | PInf, PInf | NInf, NInf => PInf
  | _, _ => NInf
  end.

Definition js_div (x y : num) : num :=
  match x, y with
  | Fin a, Fin b =>
      if Qeq_bool b 0 then
        (if Qeq_bool a 0 then NaN else sgn_inf (Qlt_bool 0 a))
      else round_double (a / b)%Q
  | NaN, _ | _, NaN => NaN
  | Fin _, _ => Fin 0
  | PInf, Fin b => sgn_inf (Qle_bool 0 b)
  | NInf, Fin b => sgn_inf (Qlt_bool b 0)
  | _, _ => NaN
  end.

(** Relational operators; every comparison with [NaN] is false. *)
Definition js_lt (x y : num) : bool :=
  match x, y with
  | NaN, _ | _, NaN => false
  | Fin a, Fin b => Qlt_bool a b
  | NInf, NInf | PInf, _ => false
  | NInf, _ | _, PInf => true
  | _, NInf => false
  end.

Definition js_gt (x y : num) : bool := js_lt y x.
Definition js_le (x y : num) : bool :=
  negb (is_nan x) && negb (is_nan y) && negb (js_lt y x).
Definition js_ge (x y : num) : bool := js_le y x.

(** [Math.abs], [Math.floor], [Math.round], [Math.max], [Math.min]. *)
Definition math_abs (x : num) : num :=
  match x with Fin q => Fin (Qabs q) | NInf => PInf | v => v end.

Definition math_floor (x : num) : num :=
  match x with Fin q => Fin (inject_Z (Qfloor q)) | v => v end.

(** The integral number closest to [x]; of two equally close ones, the one
    closer to [+Infinity]. *)
Definition math_round (x : num) : num :=
  match x with
  | Fin q =>
      let f := Qfloor q in
      if Qlt_bool (q - inject_Z f)%Q (1 # 2) then Fin (inject_Z f)
      else Fin (inject_Z (f + 1))
  | v => v
  end.

Definition math_max (x y : num) : num :=
  if is_nan x || is_nan y then NaN else if js_lt x y then y else x.

Definition math_min (x y : num) : num :=
  if is_nan x || is_nan y then NaN else if js_lt y x then y else x.

Definition MAX_SAFE_INTEGER : Z := 2 ^ 53 - 1.

Definition is_integer (x : num) : bool :=
  match x with Fin q => Qeq_bool q (inject_Z (Qfloor q)) | _ => false end.

Definition is_safe_integer (x : num) : bool :=
  match x with
  | Fin q => is_integer x && Qle_bool (Qabs q) (inject_Z MAX_SAFE_INTEGER)
  | _ => false
  end.

(** [ToUint32] and [ToInt32]. *)
Definition to_uint32 (x : num) : Z :=
  match x with
  | Fin q =>
      let t := if Qlt_bool q 0 then - Qfloor (- q)%Q else Qfloor q in
      t mod 2 ^ 32
  | _ => 0
  end.

Definition int32_of (z : Z) : Z :=
  let u := z mod 2 ^ 32 in if u <? 2 ^ 31 then u else u - 2 ^ 32.

(** ** Strings *)

Definition jstr := list ascii.

Definition str (s : string) : jstr := list_ascii_of_string s.

Definition digit_char (d : Z) : ascii := ascii_of_nat (48 + Z.to_nat d).

Fixpoint digits_aux (fuel : nat) (n : Z) (acc : jstr) : jstr :=
  match fuel with
  | O => acc
  | S f =>
      let acc' := digit_char (n mod 10) :: acc in
      if n <? 10 then acc' else digits_aux f (n / 10) acc'
  end.

(** Decimal digits of a non-negative integer. *)
Definition Z_digits (n : Z) : jstr := digits_aux (Z.to_nat (Z.log2 n + 1)) n [].

(** The [n] with [10^(n-1) <= X < 10^n], for [X > 0]. *)
Fixpoint dec_exp_adjust (fuel : nat) (X : Q) (t : Z) : Z :=
  match fuel with
  | O => t
  | S f =>
      if Qlt_bool X (p10 (t - 1)) then dec_exp_adjust f X (t - 1)
      else if Qle_bool (p10 t) X then dec_exp_adjust f X (t + 1)
      else t
  end.

Definition dec_exp (X : Q) : Z :=
  let L := flog2 (Qnum X) (Zpos (Qden X)) in
  dec_exp_adjust 12 X ((L * 30103) / 100000 + 1).

(** Step 5 of [Number::toString]: the [k]-digit integers [s] and exponents
    [n] such that the double nearest to [s * 10^(n-k)] is [x].  Of the
    [k]-digit decimals the one nearest to [X] on either side is [floor] or
    [ceil] of [X / 10^(n-k)]; the decimals rounding to [x] form an interval
    around [X], so no other [k]-digit decimal can round to [x] unless one of
    these two does. *)
Definition candidates (x : num) (X : Q) (n0 k : Z) : list (Z * Z) :=
  flat_map (fun n =>
    let sc := p10 (n - k) in
    let y := (X / sc)%Q in
    map (fun s => (s, n))
      (filter (fun s => (10 ^ (k - 1) <=? s) && (s <? 10 ^ k)
                        && num_eqb (round_double (inject_Z s * sc)%Q) x)
         [Qfloor y; Qceiling y]))
    [n0 - 1; n0; n0 + 1].

Definition cand_dist (X : Q) (k : Z) (c : Z * Z) : Q :=
  Qabs (inject_Z (fst c) * p10 (snd c - k) - X)%Q.

(** The candidate whose value is closest to [X]; of two, the even [s]. *)
Definition pick (X : Q) (k : Z) (c : Z * Z) (cs : list (Z * Z)) : Z * Z :=
  fold_left (fun best c' =>
    let d1 := cand_dist X k best in
    let d2 := cand_dist X k c' in
    if Qlt_bool d2 d1 || (Qeq_bool d2 d1 && Z.even (fst c') && Z.odd (fst best))
    then c' else best) cs c.

Fixpoint shortest (fuel : nat) (x : num) (X : Q) (n0 k : Z) : option (Z * Z * Z) :=
  match fuel with
  | O => None
  | S f =>
      match candidates x X n0 k with
      | [] => shortest f x X n0 (k + 1)
      | c :: cs => let '(s, n) := pick X k c cs in Some (s, n, k)
      end
  end.

Fixpoint strip_zeros (fuel : nat) (s e : Z) : Z * Z :=
  match fuel with
  | O => (s, e)
  | S f => if (s mod 10 =? 0) && negb (s =? 0) then strip_zeros f (s / 10) (e + 1) else (s, e)
  end.

(** The exact decimal expansion of a positive double [X = a / 2^j]. *)
Definition exact_decimal (X : Q) : Z * Z * Z :=
  let j := Z.log2 (Zpos (Qden X)) in
  let '(s, e) := strip_zeros 2000 (Qnum X * 5 ^ j) (- j) in
  let k := Z.of_nat (List.length (Z_digits s)) in
  (s, k + e, k).

(** [(s, n, k)] of step 5 for a positive finite double [X].  A decimal of
    17 significant digits always rounds back to its double, so the search
    never falls through to the exact expansion. *)
Definition decimal_of (X : Q) : Z * Z * Z :=
  match shortest 17 (Fin X) X (dec_exp X) 1 with
  | Some r => r
  | None => exact_decimal X
  end.

(** Steps 6 to 10 of [Number::toString]. *)
Definition render (s n k : Z) : jstr :=
  let ds := Z_digits s in
  if (k <=? n) && (n <=? 21) then ds ++ repeat "0"%char (Z.to_nat (n - k))
  else if (0 <? n) && (n <=? 21) then
    firstn (Z.to_nat n) ds ++ "."%char :: skipn (Z.to_nat n) ds
  else if (-6 <? n) && (n <=? 0) then
    "0"%char :: "."%char :: repeat "0"%char (Z.to_nat (- n)) ++ ds
  else
    let e := n - 1 in
    let sg := if e <? 0 then "-"%char else "+"%char in
    match ds with
    | d :: rest =>
        d :: (if k =? 1 then [] else "."%char :: rest)
          ++ "e"%char :: sg :: Z_digits (Z.abs e)
    | [] => []
    end.

(** [Number::toString(x)], i.e. [`${x}`]. *)
Definition to_string (x : num) : jstr :=
  match x with
  | NaN => str "NaN"
  | PInf => str "Infinity"
  | NInf => str "-Infinity"
  | Fin q =>
      if Qeq_bool q 0 then str "0"
      else if Qlt_bool q 0 then
        "-"%char :: (let '(s, n, k) := decimal_of (- q)%Q in render s n k)
      else let '(s, n, k) := decimal_of q in render s n k
  end.

(** ** String to number *)

Definition is_digit (c : ascii) : bool :=
  (48 <=? nat_of_ascii c)%nat && (nat_of_ascii c <=? 57)%nat.

Fixpoint take_digits (l : jstr) : jstr * jstr :=
  match l with
  | c :: r => if is_digit c then let '(ds, r') := take_digits r in (c :: ds, r')
              else ([], l)
  | [] => ([], [])
  end.

Definition digits_value (ds : jstr) : Z :=
  fold_left (fun acc c => 10 * acc + (Z.of_nat (nat_of_ascii c) - 48)) ds 0.

(** Optional exponent part [e|E [+|-] digits]; left unconsumed when it is
    not followed by at least one digit. *)
Definition scan_exponent (l : jstr) : Z * jstr :=
  match l with
  | c :: r =>
      if (c =? "e")%char || (c =? "E")%char then
        let '(sg, r1) := match r with
                         | "-"%char :: r' => (-1, r')
                         | "+"%char :: r' => (1, r')
                         | _ => (1, r)
                         end in
        let '(de, r2) := take_digits r1 in
        match de with [] => (0, l) | _ => (sg * digits_value de, r2) end
      else (0, l)
  | [] => (0, [])
  end.

Fixpoint is_prefix (p l : jstr) : bool :=
  match p, l with
  | [], _ => true
  | a :: p', b :: l' => (a =? b)%char && is_prefix p' l'
  | _, _ => false
  end.

(** The longest prefix of [l] that is a [StrUnsignedDecimalLiteral]:
    [Infinity], or [digits [. digits] [exponent]], or [. digits [exponent]]. *)
Definition scan_unsigned (l : jstr) : option (num * jstr) :=
  if is_prefix (str "Infinity") l then Some (PInf, skipn 8 l) else
  let '(d1, r1) := take_digits l in
  let '(d2, r2) := match r1 with
                   | "."%char :: r => take_digits r
                   | _ => ([], r1)
                   end in
  match d1 ++ d2 with
  | [] => None
  | ds =>
      let '(ex, r3) := scan_exponent r2 in
      let v := (inject_Z (digits_value ds) * p10 (ex - Z.of_nat (List.length d2)))%Q in
      Some (round_double v, r3)
  end.

Definition scan (l : jstr) : option (num * jstr) :=
  match l with
  | "-"%char :: r =>
      match scan_unsigned r with Some (v, r') => Some (js_neg v, r') | None => None end
  | "+"%char :: r => scan_unsigned r
  | _ => scan_unsigned l
  end.

(** [Number(s)] on strings without surrounding white space. *)
Definition to_number (l : jstr) : num :=
  match l with
  | [] => Fin 0
  | _ => match scan l with Some (v, []) => v | _ => NaN end
  end.

(** [parseFloat(s)] on strings without leading white space. *)
Definition parse_float (l : jstr) : num :=
  match scan l with Some (v, _) => v | None => NaN end.

(** [Number.prototype.toFixed(f)]. *)
Definition to_fixed (x : num) (f : Z) : jstr :=
  match x with
  | Fin q =>
      if Qle_bool (inject_Z (10 ^ 21)) (Qabs q) then to_string x else
      let a := Qabs q in
      let n := Qfloor (a * p10 f + (1 # 2))%Q in
      let m := if n =? 0 then str "0" else Z_digits n in
      let m :=
        if f =? 0 then m else
        let k := Z.of_nat (List.length m) in
        let '(m, k) := if k <=? f
                       then (repeat "0"%char (Z.to_nat (f + 1 - k)) ++ m, f + 1)
                       else (m, k) in
        firstn (Z.to_nat (k - f)) m ++ "."%char :: skipn (Z.to_nat (k - f)) m in
      if Qlt_bool q 0 then "-"%char :: m else m
  | _ => to_string x
  end.

End JS.

Import JS.

(** * [Scaled] ([src/src/lib/ElemStats.ts]) *)

Module Scaled.

(** [`${value}`.split(".")]: the part before the first ["."] and, when
    there is one, the part between it and the next ["."]. *)
Fixpoint split_dot (l : jstr) : jstr * option jstr :=
  match l with
  | [] => ([], None)
  | c :: r =>
      if (c =? ".")%char then
        ([], Some (fst (split_dot r)))
      else let '(a, b) := split_dot r in (c :: a, b)
  end.

Definition all_digits (l : jstr) : bool := forallb is_digit l.

Definition run_of (c : ascii) (l : jstr) : bool :=
  (6 <=? List.length l)%nat && forallb (fun d => (d =? c)%char) (firstn 6 l).

(** Leftmost match of [/(9{6,}|0{6,})(\d)*$/gm] in a string without line
    terminators: the first position from which the rest is all digits and
    starts with six nines or six zeros.  The match runs to the end. *)
Fixpoint first_match (i : nat) (l : jstr) : option nat :=
  match l with
  | [] => None
  | _ :: r =>
      if (run_of "9" l || run_of "0" l) && all_digits l then Some i
      else first_match (S i) r
  end.

(** [Scaled.floatingPointFix(value, repeat = 6)]. *)
Definition floatingPointFix (value : num) : num :=
  if falsy value || is_nan (parse_float (to_string value)) then value else
  let '(intPart, decimalPart) := split_dot (to_string value) in
  match decimalPart with
  | None | Some [] => value
  | Some dp =>
      match first_match 0 dp with
      | None => value
      | Some correctDecimalsLength =>
          let fixed := parse_float (intPart ++ "."%char :: dp) in
          parse_float (to_fixed fixed (Z.of_nat correctDecimalsLength))
      end
  end.

(** The source's local alias [const fix = Scaled.floatingPointFix]. *)
Abbreviation ffix := floatingPointFix.

(** [Scaled.scale(value, initialRange, targetRange)]. *)
Definition scale (value : num) (r1 r2 : num * num) : num :=
  let r1Size := ffix (js_sub (snd r1) (fst r1)) in
  let r2Size := ffix (js_sub (snd r2) (fst r2)) in
  let x := ffix (js_sub value (fst r1)) in
  let y := ffix (js_mul x r2Size) in
  let z := ffix (js_div y r1Size) in
  ffix (js_add z (fst r2)).

(** [Scaled.clip(value, range)]. *)
Definition clip (value : num) (range : num * num) : num :=
  let clipMin v := ffix (math_max (fst range) v) in
  let clipMax v := ffix (math_min v (snd range)) in
  clipMax (clipMin value).

(** [Scaled.round(value, places = 0)]:
    [fix(Number(`${Math.round(Number(`${value}e${places}`))}e-${places}`))]. *)
Definition round (value places : num) : num :=
  let inner := to_number (to_string value ++ "e"%char :: to_string places) in
  let r := math_round inner in
  ffix (to_number (to_string r ++ "e"%char :: "-"%char :: to_string places)).

(** The chaining wrapper [new Scaled(v, range)]: a value and a known range. *)
Record t := mk { value : num; range : num * num }.

Definition create (v : num) : t := mk v (Fin 0, Fin 1).

Definition scale_to (s : t) (min max : num) : t :=
  mk (scale (value s) (range s) (min, max)) (min, max).

Definition clip_to (s : t) (min max : num) : t :=
  mk (clip (value s) (min, max)) (range s).

Definition round_to (s : t) (places : num) : t :=
  mk (round (value s) places) (range s).

End Scaled.

(** * Seeds *)

(** An array element, as far as [typeof v === "number"] can tell. *)
Inductive jsval : Type :=
| VNum (x : num)
| VOther.

(** The values [Uniform.seed] and [new Uniform] can receive. *)
Inductive seed : Type :=
| SeedNum (x : num)
| SeedArray (xs : list jsval)
| SeedUint32Array (xs : list Z)
| SeedUndefined
| SeedNull
| SeedOther.

(** * [Uniform] ([src/src/roll/Uniform.ts]) *)

Module Uniform.

Definition N : Z := 624.
Definition M : Z := 397.
Definition UM : Z := 2147483648.   (* 0x80000000 *)
Definition LM : Z := 2147483647.   (* 0x7fffffff *)
Definition MA : Z := 2567483615.   (* 0x9908b0df *)

(** 32-bit words are kept as their value mod [2^32].  The source stores
    some of them as signed [int32] (the result of [^]); the two views differ
    by the representative only, and every use of a stored word applies
    [ToInt32] or [ToUint32] (a bitwise operator or [>>>= 0]) first. *)
Definition u32 (z : Z) : Z := z mod 2 ^ 32.

Definition get (mt : list Z) (i : Z) : Z := nth (Z.to_nat i) mt 0.

(** [mt[i] = v] for an index inside the array. *)
Definition set (mt : list Z) (i : Z) (v : Z) : list Z :=
  firstn (Z.to_nat i) mt ++ v :: skipn (S (Z.to_nat i)) mt.

(** [$state.seed], [mt] and [mti] of one instance. *)
Record state : Type := mk {
  st_seed : seed;
  mt : list Z;
  mti : option Z        (* [None] is [null] *)
}.

(** [new Array(N)] and [let mti = null]. *)
Definition fresh (s : seed) : state := mk s (repeat 0 (Z.to_nat N)) None.

(** [x << 16] *)
Definition shl16 (x : Z) : Z := int32_of (int32_of x * 2 ^ 16).

(** The loop body of [withInt]; all intermediate values are integers below
    [2^53] in magnitude, so the double arithmetic is exact. *)
Fixpoint withInt_loop (fuel : nat) (i : Z) (mt : list Z) : list Z :=
  match fuel with
  | O => mt
  | S f =>
      let s := Z.lxor (get mt (i - 1)) (Z.shiftr (get mt (i - 1)) 30) in
      let v := shl16 (Z.shiftr (Z.land s 4294901760) 16 * 1812433253)
               + Z.land s 65535 * 1812433253 + i in
      withInt_loop f (i + 1) (set mt i (u32 v))
  end.

(** [$private.seed.withInt(intSeed)]; it leaves [mti] at [N]. *)
Definition withInt (intSeed : num) (st : state) : state :=
  let mt0 := set (mt st) 0 (to_uint32 intSeed) in
  mk (st_seed st) (withInt_loop (Z.to_nat (N - 1)) 1 mt0) (Some N).

Definition wrap_i (mt : list Z) (i : Z) : list Z * Z :=
  if i >=? N then (set mt 0 (get mt (N - 1)), 1) else (mt, i).

(** First loop of [withArray]: [mt[i] = (mt[i] ^ (a + b)) + v[j] + j],
    with the two additions done in double arithmetic. *)
Fixpoint withArray_loop1 (fuel : nat) (v : list num) (i j : Z) (mt : list Z)
  : list Z * Z :=
  match fuel with
  | O => (mt, i)
  | S f =>
      let s := Z.lxor (get mt (i - 1)) (Z.shiftr (get mt (i - 1)) 30) in
      let a := shl16 (Z.shiftr (Z.land s 4294901760) 16 * 1664525) in
      let b := Z.land s 65535 * 1664525 in
      let x := int32_of (Z.lxor (get mt i) (u32 (a + b))) in
      let sum := js_add (js_add (of_Z x) (nth (Z.to_nat j) v NaN)) (of_Z j) in
      let mt := set mt i (to_uint32 sum) in
      let '(mt, i) := wrap_i mt (i + 1) in
      let j := if j + 1 >=? Z.of_nat (List.length v) then 0 else j + 1 in
      withArray_loop1 f v i j mt
  end.

(** Second loop of [withArray]: [mt[i] = (mt[i] ^ (a + b)) - i]. *)
Fixpoint withArray_loop2 (fuel : nat) (i : Z) (mt : list Z) : list Z :=
  match fuel with
  | O => mt
  | S f =>
      let s := Z.lxor (get mt (i - 1)) (Z.shiftr (get mt (i - 1)) 30) in
      let a := shl16 (Z.shiftr (Z.land s 4294901760) 16 * 1566083941) in
      let b := Z.land s 65535 * 1566083941 in
      let x := int32_of (Z.lxor (get mt i) (u32 (a + b))) in
      let mt := set mt i (u32 (x - i)) in
      let '(mt, i) := wrap_i mt (i + 1) in
      withArray_loop2 f i mt
  end.

(** [$private.seed.withArray(arrSeed)]. *)
Definition withArray (v : list num) (st : state) : state :=
  let st1 := withInt (nth 0 v NaN) st in
  let k := Z.max N (Z.of_nat (List.length v)) in
  let '(mt1, i) := withArray_loop1 (Z.to_nat k) v 1 0 (mt st1) in
  let mt2 := withArray_loop2 (Z.to_nat (N - 1)) i mt1 in
  (* Guard against an empty or invalid array. *)
  let mt3 := if (List.length mt2 <? 1)%nat then set mt2 0 UM else mt2 in
  mk (st_seed st1) mt3 (mti st1).

(** [$private.seed.withCrypto()], where [entropy] is the array
    [Uniform.createRandomSeed()] returns. *)
Definition withCrypto (entropy : list Z) (st : state) : state :=
  let st := mk (SeedArray (map (fun z => VNum (of_Z z)) entropy)) (mt st) (mti st) in
  withArray (map of_Z entropy) st.

(** [ensureUint] of [$private.init]. *)
Definition ensureUint (num0 : num) : num :=
  if js_gt num0 (of_Z MAX_SAFE_INTEGER) then of_Z (-1) else
  let num1 := if js_lt num0 (Fin 0) then math_abs num0 else num0 in
  let num2 := if negb (is_integer num1) then to_number (to_fixed num1 0) else num1 in
  if negb (is_safe_integer num2) then of_Z (-1) else num2.

Definition num_of_jsval (v : jsval) : num :=
  match v with VNum x => x | VOther => NaN end.

Definition is_num (v : jsval) : bool :=
  match v with VNum _ => true | VOther => false end.

(** The array branch of [$private.init], on the elements [ss]. *)
Definition init_array (entropy : list Z) (ss : list num) (st : state) : state :=
  match ss with
  | [] => withCrypto entropy st
  | _ =>
      let ss := map ensureUint ss in
      if existsb (num_eqb (of_Z (-1))) ss then withCrypto entropy st
      else withArray ss (mk (SeedArray (map VNum ss)) (mt st) (mti st))
  end.

(** [$private.init(withSeed)]. *)
Definition init (entropy : list Z) (withSeed : seed) (st : state) : state :=
  match withSeed with
  | SeedNum x =>
      let ss := ensureUint x in
      if js_ge ss (Fin 0) then withInt ss (mk (SeedNum ss) (mt st) (mti st))
      else withCrypto entropy st
  | SeedArray xs =>
      if forallb is_num xs then init_array entropy (map num_of_jsval xs) st
      else withCrypto entropy st
  | SeedUint32Array xs => init_array entropy (map of_Z xs) st
  | SeedUndefined | SeedNull | SeedOther => withCrypto entropy st
  end.

(** [new Uniform(seed)]. *)
Definition create (entropy : list Z) (s : seed) : state :=
  init entropy s (fresh s).

(** [uniform.seed($seed)] with an argument: re-initialise unless it is
    [undefined] or [null]. *)
Definition reseed (entropy : list Z) (s : seed) (st : state) : state :=
  match s with
  | SeedUndefined | SeedNull => st
  | _ => init entropy s st
  end.

Definition mag01 (b : Z) : Z := if b =? 0 then 0 else MA.

Definition twist_step (off : Z) (mt : list Z) (kk : Z) : list Z :=
  let y := Z.lor (Z.land (get mt kk) UM) (Z.land (get mt (kk + 1)) LM) in
  set mt kk (Z.lxor (Z.lxor (get mt (kk + off)) (Z.shiftr y 1)) (mag01 (Z.land y 1))).

Fixpoint twist_loop (fuel : nat) (off kk : Z) (mt : list Z) : list Z :=
  match fuel with
  | O => mt
  | S f => twist_loop f off (kk + 1) (twist_step off mt kk)
  end.

(** The generation step of [int32], run on the whole array in place.
    Each word is kept as its unsigned value modulo [2^32]; the source
    stores the signed int32 result of [^], which has the same 32 bits.
    Every later read of a twisted word goes through [&], [^] or [>>>],
    which see only those bits, so the outputs are the same. *)
Definition twist (mt : list Z) : list Z :=
  let mt := twist_loop (Z.to_nat (N - M)) M 0 mt in
  let mt := twist_loop (Z.to_nat (M - 1)) (M - N) (N - M) mt in
  let y := Z.lor (Z.land (get mt (N - 1)) UM) (Z.land (get mt 0) LM) in
  set mt (N - 1)
    (Z.lxor (Z.lxor (get mt (M - 1)) (Z.shiftr y 1)) (mag01 (Z.land y 1))).

Definition temper (y : Z) : Z :=
  let y := Z.lxor y (Z.shiftr y 11) in
  let y := Z.lxor y (Z.land (Z.shiftl y 7) 2636928640) in    (* 0x9d2c5680 *)
  let y := Z.lxor y (Z.land (Z.shiftl y 15) 4022730752) in   (* 0xefc60000 *)
  let y := Z.lxor y (Z.shiftr y 18) in
  u32 y.

(** [$private.int32()]: twist when [mti !== null], then read
    [mt[(mti += 1)]]. *)
Definition int32 (st : state) : Z * state :=
  let '(mt1, i) := match mti st with
                   | Some _ => (twist (mt st), 0)
                   | None => (mt st, 0)      (* null + 1 is 1 *)
                   end in
  let i := i + 1 in
  (temper (get mt1 i), mk (st_seed st) mt1 (Some i)).

(** [this.random()]. *)
Definition random (st : state) : num * state :=
  let '(c, st') := int32 st in
  let a := Z.shiftr c 5 in
  let b := Z.shiftr c 6 in
  let x := Scaled.ffix (js_add (js_mul (of_Z a) (of_Z 67108864)) (of_Z b)) in
  let y := Scaled.ffix (js_div (of_Z 1) (of_Z 9007199254740992)) in
  (Scaled.ffix (js_mul x y), st').

End Uniform.

(** * Reference MT19937 ([mt19937ar.c] by Matsumoto and Nishimura)

    Written from the published reference algorithm, not from this
    repository: the bit-exact behaviour the [Uniform] generator is meant to
    reproduce.  [init_genrand] seeds from an integer, [init_by_array] from
    an array, [genrand_int32] yields the next tempered word and
    [genrand_res53] the 53-bit real [(a * 2^26 + b) / 2^53]. *)

Module MT19937Ref.

Definition N : Z := 624.
Definition M : Z := 397.

Record state : Type := mk { mt : list Z; mti : Z }.

Definition get (mt : list Z) (i : Z) : Z := nth (Z.to_nat i) mt 0.
Definition set (mt : list Z) (i : Z) (v : Z) : list Z :=
  firstn (Z.to_nat i) mt ++ v :: skipn (S (Z.to_nat i)) mt.
Definition mask (z : Z) : Z := Z.land z 4294967295.

Fixpoint genrand_fill (fuel : nat) (i : Z) (mt : list Z) : list Z :=
  match fuel with
  | O => mt
  | S f =>
      let p := get mt (i - 1) in
      genrand_fill f (i + 1)
        (set mt i (mask (1812433253 * Z.lxor p (Z.shiftr p 30) + i)))
  end.

Definition init_genrand (s : Z) : state :=
  mk (genrand_fill (Z.to_nat (N - 1)) 1 (set (repeat 0 (Z.to_nat N)) 0 (mask s))) N.

Definition next_i (mt : list Z) (i : Z) : list Z * Z :=
  if i >=? N then (set mt 0 (get mt (N - 1)), 1) else (mt, i).

Fixpoint by_array1 (fuel : nat) (key : list Z) (i j : Z) (mt : list Z)
  : list Z * Z :=
  match fuel with
  | O => (mt, i)
  | S f =>
      let p := get mt (i - 1) in
      let mt := set mt i (mask (Z.lxor (get mt i) (Z.lxor p (Z.shiftr p 30) * 1664525)
                                + nth (Z.to_nat j) key 0 + j)) in
      let '(mt, i) := next_i mt (i + 1) in
      let j := if j + 1 >=? Z.of_nat (List.length key) then 0 else j + 1 in
      by_array1 f key i j mt
  end.

Fixpoint by_array2 (fuel : nat) (i : Z) (mt : list Z) : list Z :=
  match fuel with
  | O => mt
  | S f =>
      let p := get mt (i - 1) in
      let mt := set mt i (mask (Z.lxor (get mt i) (Z.lxor p (Z.shiftr p 30) * 1566083941)
                                - i)) in
      let '(mt, i) := next_i mt (i + 1) in
      by_array2 f i mt
  end.

Definition init_by_array (key : list Z) : state :=
  let s0 := init_genrand 19650218 in
  let k := Z.max N (Z.of_nat (List.length key)) in
  let '(mt1, i) := by_array1 (Z.to_nat k) key 1 0 (mt s0) in
  let mt2 := by_array2 (Z.to_nat (N - 1)) i mt1 in
  mk (set mt2 0 2147483648) N.

Definition mag01 (b : Z) : Z := if b =? 0 then 0 else 2567483615.

Definition gen_word (mt : list Z) (kk next off : Z) : Z :=
  let y := Z.lor (Z.land (get mt kk) 2147483648) (Z.land (get mt next) 2147483647) in
  Z.lxor (Z.lxor (get mt off) (Z.shiftr y 1)) (mag01 (Z.land y 1)).

Fixpoint gen_loop (fuel : nat) (kk : Z) (mt : list Z) : list Z :=
  match fuel with
  | O => mt
  | S f =>
      let off := if kk <? N - M then kk + M else kk + (M - N) in
      gen_loop f (kk + 1) (set mt kk (gen_word mt kk (kk + 1) off))
  end.

(** Generate [N] words at one time. *)
Definition generate (mt : list Z) : list Z :=
  let mt := gen_loop (Z.to_nat (N - 1)) 0 mt in
  set mt (N - 1) (gen_word mt (N - 1) 0 (M - 1)).

Definition genrand_int32 (s : state) : Z * state :=
  let s := if mti s >=? N then
             let s := if mti s =? N + 1 then init_genrand 5489 else s in
             mk (generate (mt s)) 0
           else s in
  let y := get (mt s) (mti s) in
  let y := Z.lxor y (Z.shiftr y 11) in
  let y := Z.lxor y (Z.land (Z.shiftl y 7) 2636928640) in
  let y := Z.lxor y (Z.land (Z.shiftl y 15) 4022730752) in
  let y := Z.lxor y (Z.shiftr y 18) in
  (mask y, mk (mt s) (mti s + 1)).

(** [(a * 67108864.0 + b) * (1.0 / 9007199254740992.0)] in doubles. *)
Definition genrand_res53 (s : state) : num * state :=
  let '(w1, s1) := genrand_int32 s in
  let '(w2, s2) := genrand_int32 s1 in
  let a := Z.shiftr w1 5 in
  let b := Z.shiftr w2 6 in
  (js_mul (js_add (js_mul (of_Z a) (of_Z 67108864)) (of_Z b))
          (js_div (of_Z 1) (of_Z 9007199254740992)), s2).

End MT19937Ref.

(** * [History] ([src/src/roll/History.ts]) *)

Module History.

(** The array's elements (each one the array [items] a [push] received)
    and the closure variable [max]. *)
Record t : Type := mk { entries : list (list num); max : num }.

(** [new History(maxHistory)]: [max = maxHistory ?? Infinity]. *)
Definition create (maxHistory : option num) : t :=
  mk [] (match maxHistory with Some m => m | None => PInf end).

(** [history.max(size)]: only a safe integer is accepted. *)
Definition set_max (size : option num) (h : t) : t :=
  match size with
  | Some s => if is_safe_integer s then mk (entries h) s else h
  | None => h
  end.

Definition len (l : list (list num)) : num := of_Z (Z.of_nat (List.length l)).

(** [while (count--) if (this.length >= max) this.shift();] *)
Fixpoint evict (count : nat) (max : num) (l : list (list num)) : list (list num) :=
  match count with
  | O => l
  | S c => evict c max (if js_ge (len l) max then tl l else l)
  end.

(** [history.push(...items)]: evict, then [super.push(items)] appends the
    array [items] as a single element. *)
Definition push (items : list num) (h : t) : t :=
  mk (evict (List.length items) (max h) (entries h) ++ [items]) (max h).

(** [history.map((x) => x[0])]; the entries [Roll] pushes hold one number. *)
Definition values (h : t) : list num := map (fun x => nth 0 x NaN) (entries h).

End History.

(** * The platform's approximated [Math] functions

    ECMAScript leaves [Math.log], [Math.cos] and [**] implementation-
    approximated, so the development is parametric in them (and in
    [Math.sqrt], which only the statistics use). *)
Record MathLib : Type := {
  m_log : num -> num;
  m_cos : num -> num;
  m_sqrt : num -> num;
  m_pow : num -> num -> num
}.

(** Each [new Uniform()] without a seed draws one array from
    [Uniform.createRandomSeed()]; the successive arrays form a stream. *)
Definition entropy : Type := Streams.Stream (list Z).

(** * [Gaussian] ([src/unnamed/part_006], compiled [Gaussian.ts]) *)

Module Gaussian.

(** [Math.PI] as a double. *)
Definition PI : num := Fin (884279719003555 # 281474976710656).

(** [scaleSkew(sk)]. *)
Definition scaleSkew (sk : num) : num :=
  let n := Scaled.clip_to (Scaled.create (math_abs sk)) (Fin 0) (of_Z 1) in
  if strict_eq sk (Fin 0) then of_Z 1
  else if js_lt sk (Fin 0) then js_sub (of_Z 1) (Scaled.value n)
  else Scaled.value (Scaled.scale_to n (Fin 0) (of_Z 4)).

(** [while (u === 0) u = uniformGenerator.random();] from [u = 0]. *)
Fixpoint draw_nonzero (fuel : nat) (u : num) (g : Uniform.state)
  : option (num * Uniform.state) :=
  if strict_eq u (Fin 0) then
    match fuel with
    | O => None
    | S f => let '(x, g') := Uniform.random g in draw_nonzero f x g'
    end
  else Some (u, g).

Section WithMath.

Variable math : MathLib.

(** [fix(Math.sqrt(-2.0 * Math.log(u)) * Math.cos(2.0 * Math.PI * v))]
    scaled back by [fix(num / 10.0 + 0.5)]. *)
Definition rescaled (u v : num) : num :=
  let num := Scaled.ffix (js_mul (m_sqrt math (js_mul (of_Z (-2)) (m_log math u)))
                                 (m_cos math (js_mul (js_mul (of_Z 2) PI) v))) in
  Scaled.ffix (js_add (js_div num (of_Z 10)) (Fin (1 # 2))).

Definition out_of_range (num : num) : bool := js_gt num (of_Z 1) || js_lt num (Fin 0).

(** [Gaussian(uniformGenerator, skew)] (after the default [skew = 0]):
    the final generator state and the rest of the entropy stream are
    returned along with the number; [None] when [fuel] runs out. *)
Fixpoint Gaussian (fuel : nat) (ent : entropy) (g : Uniform.state) (skew : num)
  : option (num * Uniform.state * entropy) :=
  match fuel with
  | O => None
  | S f =>
      let skew := scaleSkew skew in
      match draw_nonzero fuel (Fin 0) g with
      | None => None
      | Some (u, g1) =>
          match draw_nonzero fuel (Fin 0) g1 with
          | None => None
          | Some (v, g2) =>
              let num := rescaled u v in
              let res :=
                if out_of_range num then
                  (* [Number(Gaussian(new Uniform(), skew))] *)
                  match Gaussian f (Streams.tl ent)
                          (Uniform.create (Streams.hd ent) SeedUndefined) skew with
                  | Some (n, _, ent') => Some (n, ent')
                  | None => None
                  end
                else Some (num, ent) in
              match res with
              | None => None
              | Some (num, ent') => Some (Scaled.ffix (m_pow math num skew), g2, ent')
              end
          end
      end
  end.

End WithMath.

End Gaussian.

(** * [Elemstats] ([src/src/lib/ElemStats.ts]) *)

Module Elemstats.

Inductive error : Type := TypeError.

(** Normal or abrupt completion. *)
Inductive completion (A : Type) : Type :=
| Ok (a : A)
| Throw (e : error).
Arguments Ok {A} a.
Arguments Throw {A} e.

(** [arr.reduce((previous, current) => (current += previous))]: with no
    initial value an empty array throws a [TypeError]. *)
Definition reduce_sum (arr : list num) : completion num :=
  match arr with
  | [] => Throw TypeError
  | x :: r => Ok (fold_left (fun previous current => js_add current previous) r x)
  end.

Definition mean (arr : list num) : completion num :=
  match reduce_sum arr with
  | Throw e => Throw e
  | Ok sum => Ok (Scaled.ffix (js_div sum (of_Z (Z.of_nat (List.length arr)))))
  end.

(** [arr.sort((a, b) => a - b)] as a stable insertion sort; for
    comparisons without [NaN] every stable sort gives this order. *)
Fixpoint insert (x : num) (l : list num) : list num :=
  match l with
  | [] => [x]
  | y :: r => if js_gt (js_sub y x) (Fin 0) then x :: y :: r else y :: insert x r
  end.

Definition sort (l : list num) : list num := fold_left (fun acc x => insert x acc) l [].

(** [arr[i]]; [None] is [undefined]. *)
Definition elem (l : list num) (i : Z) : option num :=
  if i <? 0 then None else nth_error l (Z.to_nat i).

Definition add_elems (a b : option num) : num :=
  match a, b with Some x, Some y => js_add x y | _, _ => NaN end.

Definition median (arr : list num) : completion num :=
  let arr := sort arr in
  let n := Z.of_nat (List.length arr) in
  let median := js_div (add_elems (elem arr (Z.shiftr (n - 1) 1)) (elem arr (Z.shiftr n 1)))
                       (of_Z 2) in
  Ok (Scaled.ffix median).

Definition jstr_eqb (a b : jstr) : bool :=
  if list_eq_dec ascii_dec a b then true else false.

(** [counts[number] = (counts[number] || 0) + 1] on the property key
    [ToString(number)]; returns the new count. *)
Fixpoint bump (k : jstr) (cs : list (jstr * Z)) : list (jstr * Z) * Z :=
  match cs with
  | [] => ([(k, 1)], 1)
  | (k', c) :: r =>
      if jstr_eqb k k' then ((k', c + 1) :: r, c + 1)
      else let '(r', n) := bump k r in ((k', c) :: r', n)
  end.

(** A property key that is an array index: a canonical decimal numeral of
    an integer in [[0, 2^32 - 2]]. *)
Definition index_of_key (k : jstr) : option Z :=
  match k with
  | [] => None
  | c :: r =>
      if Scaled.all_digits k && (negb (c =? "0")%char || (List.length r =? 0)%nat)
         && (digits_value k <=? 4294967294)
      then Some (digits_value k) else None
  end.

Fixpoint insert_idx (x : Z * Z) (l : list (Z * Z)) : list (Z * Z) :=
  match l with
  | [] => [x]
  | y :: r => if fst x <? fst y then x :: y :: r else y :: insert_idx x r
  end.

(** The [(index, count)] pairs [counts.forEach] visits, in ascending index
    order; other property keys are not visited. *)
Definition index_entries (cs : list (jstr * Z)) : list (Z * Z) :=
  fold_left (fun acc '(k, c) =>
               match index_of_key k with Some i => insert_idx (i, c) acc | None => acc end)
            cs [].

(** [Elemstats.modes(arr)]. *)
Definition modes (arr : list num) : list num :=
  let '(counts, max) :=
    fold_left (fun '(cs, max) number =>
                 let '(cs', c) := bump (to_string number) cs in
                 (cs', if c >? max then c else max))
              arr ([], 0) in
  map (fun '(index, _) => Scaled.ffix (of_Z index))
      (filter (fun '(_, count) => count =? max) (index_entries counts)).

(** [Math.max(...arr)]. *)
Definition max_of (arr : list num) : num := fold_left math_max arr NInf.

(** [Elemstats.stdDev(arr)]. *)
Definition stdDev (math : MathLib) (arr : list num) : completion num :=
  match mean arr with
  | Throw e => Throw e
  | Ok avg =>
      let sqDiffs := map (fun value =>
                            let diff := Scaled.ffix (js_sub value avg) in
                            Scaled.ffix (js_mul diff diff)) arr in
      match mean sqDiffs with
      | Throw e => Throw e
      | Ok m =>
          let avgSqRt := Scaled.ffix (m_sqrt math m) in
          Ok (Scaled.scale avgSqRt (Fin 0, max_of arr) (Fin 0, of_Z 1))
      end
  end.

End Elemstats.

(** * The random number manager [Roll]

    [src/src/roll/Roll.ts]; where the compiled copy in
    [src/publish/lib/History.js] differs ([random], [d]) both are given. *)

Module Roll.

(** The closure variables [uniform] and [history] of one instance. *)
Record t : Type := mk { uni : Uniform.state; hist : History.t }.

(** [new Roll({ seed, maxHistory })]; an absent seed is [SeedUndefined]
    and draws its seed from [entropy]. *)
Definition create (entropy : list Z) (s : seed) (maxHistory : option num) : t :=
  mk (Uniform.create entropy s) (History.create maxHistory).

Definition history (m : t) : list num := History.values (hist m).

(** [maxHistory(size)]: the current maximum, after setting it. *)
Definition maxHistory (size : option num) (m : t) : num * t :=
  let h := History.set_max size (hist m) in (History.max h, mk (uni m) h).

(** [clearHistory()]: [history = new History(); history.max(max)]. *)
Definition clearHistory (m : t) : t :=
  mk (uni m) (History.set_max (Some (History.max (hist m))) (History.create None)).

(** [seed($seed)] as a setter. *)
Definition seed_set (entropy : list Z) (s : seed) (m : t) : t :=
  match s with
  | SeedUndefined => m
  | _ => let m := clearHistory m in mk (Uniform.reseed entropy s (uni m)) (hist m)
  end.

(** [uniform()]. *)
Definition uniform (m : t) : num * t :=
  let '(rand, u) := Uniform.random (uni m) in
  (rand, mk u (History.push [rand] (hist m))).

Section WithMath.

Variable math : MathLib.

(** [gaussian(skew)], with [skew = 0] when absent. *)
Definition gaussian (fuel : nat) (ent : entropy) (m : t) (skew : option num)
  : option (num * t * entropy) :=
  let skew := match skew with Some s => s | None => Fin 0 end in
  match Gaussian.Gaussian math fuel ent (uni m) skew with
  | Some (rand, u, ent') => Some (rand, mk u (History.push [rand] (hist m)), ent')
  | None => None
  end.

(** [$private.d(sides, skew)]; [floor] tells whether [sides] goes through
    [Math.floor] (the compiled copy) or not ([Roll.ts]). *)
Definition d_private (floor : bool) (fuel : nat) (ent : entropy) (m : t)
    (sides : num) (skew : option num) : option (num * t * entropy) :=
  let drawn :=
    match skew with
    | Some s => Gaussian.Gaussian math fuel ent (uni m) s
    | None => let '(r, u) := Uniform.random (uni m) in Some (r, u, ent)
    end in
  match drawn with
  | None => None
  | Some (r, u, ent') =>
      let top := if floor then math_floor sides else sides in
      let n := Scaled.round_to (Scaled.scale_to (Scaled.create r) (of_Z 1) top) (Fin 0) in
      let num := Scaled.value n in
      Some (num, mk u (History.push [num] (hist m)), ent')
  end.

(** [Roll.ts]: [this.d = (sides) => $private.d(sides)], so [skew] is
    dropped. *)
Definition d (fuel : nat) (ent : entropy) (m : t) (sides : num) (skew : option num)
  : option (num * t * entropy) :=
  d_private false fuel ent m sides None.

(** Compiled copy: [this.d = (sides, skew) => $private.d(sides, skew)]. *)
Definition d_pub (fuel : nat) (ent : entropy) (m : t) (sides : num) (skew : option num)
  : option (num * t * entropy) :=
  d_private true fuel ent m sides skew.

(** Compiled copy: [random(skew)] is [uniform()] unless [typeof skew ===
    "number"], in which case it is [gaussian(skew)]. *)
Definition random_pub (fuel : nat) (ent : entropy) (m : t) (skew : option num)
  : option (num * t * entropy) :=
  match skew with
  | None => let '(r, m') := uniform m in Some (r, m', ent)
  | Some s => gaussian fuel ent m (Some s)
  end.

(** [standardDeviation(arr)]. *)
Definition stdDev (m : t) (arr : option (list num)) : Elemstats.completion num :=
  Elemstats.stdDev math (match arr with Some a => a | None => history m end).

End WithMath.

(** [Roll.ts]: [this.random = () => $private.uniform()]; an argument is
    ignored. *)
Definition random (m : t) (skew : option num) : num * t := uniform m.

(** [mean(arr)], [median(arr)], [modes(arr)]: [arr = arr || this.history()]. *)
Definition arg_or_history (m : t) (arr : option (list num)) : list num :=
  match arr with Some a => a | None => history m end.

Definition mean (m : t) (arr : option (list num)) : Elemstats.completion num :=
  Elemstats.mean (arg_or_history m arr).

Definition median (m : t) (arr : option (list num)) : Elemstats.completion num :=
  Elemstats.median (arg_or_history m arr).

Definition modes (m : t) (arr : option (list num)) : list num :=
  Elemstats.modes (arg_or_history m arr).

End Roll.

(** * Notions used by the statements *)

Module Props.

(** A safe non-negative integer. *)
Definition valid_uint (x : num) : bool := is_safe_integer x && js_ge x (Fin 0).

Definition valid_elem (v : jsval) : bool :=
  match v with VNum x => valid_uint x | VOther => false end.

(** The seeds the specification calls valid: a safe non-negative integer
    or a non-empty array of them. *)
Definition valid_seed (s : seed) : bool :=
  match s with
  | SeedNum x => valid_uint x
  | SeedArray [] => false
  | SeedArray xs => forallb valid_elem xs
  | _ => false
  end.

Definition seed123 : seed := SeedArray [VNum (of_Z 1); VNum (of_Z 2); VNum (of_Z 3)].

(** [n] successive [uniform.random()] draws. *)
Fixpoint draws (n : nat) (g : Uniform.state) : list num :=
  match n with
  | O => []
  | S k => let '(x, g') := Uniform.random g in x :: draws k g'
  end.

(** [n] successive [roll.random()] calls on a [Roll.ts] manager. *)
Fixpoint random_draws (n : nat) (m : Roll.t) : list num :=
  match n with
  | O => []
  | S k => let '(x, m') := Roll.random m None in x :: random_draws k m'
  end.

(** The sampling calls of a [Roll.ts] manager. *)
Inductive op : Type :=
| OpUniform
| OpGaussian (skew : option num)
| OpD (sides : num) (skew : option num)
| OpRandom (skew : option num).

Definition step (math : MathLib) (fuel : nat) (ent : entropy) (m : Roll.t) (o : op)
  : option (num * Roll.t * entropy) :=
  match o with
  | OpUniform => let '(r, m') := Roll.uniform m in Some (r, m', ent)
  | OpGaussian skew => Roll.gaussian math fuel ent m skew
  | OpD sides skew => Roll.d math fuel ent m sides skew
  | OpRandom skew => let '(r, m') := Roll.random m skew in Some (r, m', ent)
  end.

(** Run the calls in order; the results in order of insertion. *)
Fixpoint run (math : MathLib) (fuel : nat) (ent : entropy) (m : Roll.t) (ops : list op)
  : option (list num * Roll.t * entropy) :=
  match ops with
  | [] => Some ([], m, ent)
  | o :: os =>
      match step math fuel ent m o with
      | None => None
      | Some (r, m', ent') =>
          match run math fuel ent' m' os with
          | None => None
          | Some (rs, m'', ent'') => Some (r :: rs, m'', ent'')
          end
      end
  end.

(** The last [k] elements of a list. *)
Definition lastn {A : Type} (k : nat) (l : list A) : list A :=
  skipn (List.length l - k) l.

(** Occurrences of the property key [k] among the keys of [arr]. *)
Definition count_key (k : jstr) (arr : list num) : Z :=
  Z.of_nat (List.length (filter (fun y => Elemstats.jstr_eqb (to_string y) k) arr)).

(** The highest number of occurrences of a value of [arr]. *)
Definition max_count (arr : list num) : Z :=
  fold_left Z.max (map (fun y => count_key (to_string y) arr) arr) 0.

(** A [MathLib] for running examples; its values are not accurate. *)
Definition sample_math : MathLib := {|
  m_log := fun _ => of_Z (-1);
  m_cos := fun _ => of_Z 1;
  m_sqrt := fun x => x;
  m_pow := fun x _ => x
|}.

Definition g5489 : Uniform.state := Uniform.create [] (SeedNum (of_Z 5489)).

(** The first two draws of [g5489]. *)
Definition u5489 : num := fst (Uniform.random g5489).
Definition g5489_1 : Uniform.state := snd (Uniform.random g5489).
Definition v5489 : num := fst (Uniform.random g5489_1).
Definition g5489_2 : Uniform.state := snd (Uniform.random g5489_1).

(** Like [sample_math], but [Math.log] of the first draw of [g5489] is
    [-50], which sends the first Box-Muller value of [g5489] out of
    range. *)
Definition far_math : MathLib := {|
  m_log := fun x => if num_eqb x u5489 then of_Z (-50) else of_Z (-1);
  m_cos := fun _ => of_Z 1;
  m_sqrt := fun x => x;
  m_pow := fun x _ => x
|}.

Definition single (x : num) : list num := [x].

(** Five sampling calls. *)
Definition ops5 : list op :=
  [OpUniform; OpD (of_Z 6) None; OpRandom None; OpUniform; OpD (of_Z 20) None].

(** [seed(s)] changes the manager unless [s] is [undefined]. *)
Definition is_defined (s : seed) : bool :=
  match s with SeedUndefined => false | _ => true end.

Definition m5489 : Roll.t := Roll.create [] (SeedNum (of_Z 5489)) None.

(** A manager built with [maxHistory: 2.5], after one [uniform()]. *)
Definition m_frac : Roll.t :=
  snd (Roll.uniform (Roll.create [] (SeedNum (of_Z 1)) (Some (Fin (5 # 2))))).

(** What [Gaussian] returns after an out-of-range first value, with the
    final state [g2] of the caller's generator: the recursive call on a
    fresh [Uniform] receives the converted skew, and the result goes
    through [fix(num ** skew)] once more. *)
Definition resampled (math : MathLib) (fuel : nat) (ent : entropy) (skew : num)
    (g2 : Uniform.state) : option (num * Uniform.state * entropy) :=
  match Gaussian.Gaussian math fuel (Streams.tl ent)
          (Uniform.create (Streams.hd ent) SeedUndefined) (Gaussian.scaleSkew skew) with
  | Some (n, _, ent') => Some (Scaled.ffix (m_pow math n (Gaussian.scaleSkew skew)), g2, ent')
  | None => None
  end.

(** The manager state of a result differs (in [mt[0]]) from that of [p]. *)
Definition differs_from (o : option (num * Roll.t * entropy)) (p : num * Roll.t) : bool :=
  match o with
  | Some (_, m', _) =>
      negb (Uniform.get (Uniform.mt (Roll.uni m')) 0 =? Uniform.get (Uniform.mt (Roll.uni (snd p))) 0)
  | None => false
  end.

(** The loop bodies of [modes] and [index_entries], named. *)
Definition modes_step : list (jstr * Z) * Z -> num -> list (jstr * Z) * Z :=
  fun '(cs, max) number =>
    let '(cs', c) := Elemstats.bump (to_string number) cs in
    (cs', if c >? max then c else max).

Definition index_step (acc : list (Z * Z)) (kc : jstr * Z) : list (Z * Z) :=
  let '(k, c) := kc in
  match Elemstats.index_of_key k with
  | Some i => Elemstats.insert_idx (i, c) acc
  | None => acc
  end.

Definition fst_lt (a b : Z * Z) : Prop := fst a < fst b.

(** Auxiliary definitions of the further properties. *)

Definition nonfinite (x : num) : bool :=
  match x with Fin _ => false | _ => true end.

Definition well_formed (st : Uniform.state) : bool :=
  (List.length (Uniform.mt st) =? 624)%nat &&
  forallb (fun w => (0 <=? w) && (w <? 2 ^ 32)) (Uniform.mt st).

Definition resets (s : seed) : bool :=
  match s with SeedUndefined | SeedNull => false | _ => true end.

Definition no_gauss (o : op) : bool :=
  match o with OpGaussian _ => false | _ => true end.

Inductive uop : Type :=
| URandom
| UReseed (entropy : list Z) (s : seed).

Fixpoint urun (st : Uniform.state) (ops : list uop) : Uniform.state :=
  match ops with
  | [] => st
  | URandom :: os => urun (snd (Uniform.random st)) os
  | UReseed e s :: os => urun (Uniform.reseed e s st) os
  end.

Definition in32 (x : Z) : Prop := 0 <= x < 2 ^ 32.
Definition wfl (mt : list Z) : Prop := List.length mt = 624%nat /\ Forall in32 mt.

Definition sview (p : num * Roll.t * entropy) : num * Uniform.state * entropy :=
  let '(r, m', e') := p in (r, Roll.uni m', e').

Definition rview (p : list num * Roll.t * entropy) : list num * Uniform.state * entropy :=
  let '(rs, m', e') := p in (rs, Roll.uni m', e').

Definition nn (x : num) : Prop := match x with Fin q => (0 <= q)%Q | NInf => False | _ => True end.

Definition digit_head (l : jstr) : bool := match l with [] => true | c :: _ => is_digit c end.

Definition crypto_ok (e : list Z) : bool :=
  negb (Nat.eqb (List.length e) 0) &&
  forallb (fun z => (0 <=? z) && (z <=? MAX_SAFE_INTEGER)) e.

End Props.

(** * Properties *)

Module Facts.

Import Props.
Import Elemstats.

(** C1 (divergence from the reference).  [$private.int32] twists the whole
    state on every call (its test is [mti !== null]) and then reads
    [mt[1]]; for the integer seed 5489 its first word is 581869302 where
    the reference MT19937 yields 3499211612, and the first [random()] value
    differs from the reference [genrand_res53]. *)
Theorem uniform_diverges_from_mt19937 :
  (forall s mt i,
     Uniform.int32 (Uniform.mk s mt (Some i)) =
     (Uniform.temper (Uniform.get (Uniform.twist mt) 1),
      Uniform.mk s (Uniform.twist mt) (Some 1))) /\
  (forall ent, fst (Uniform.int32 (Uniform.create ent (SeedNum (of_Z 5489)))) = 581869302) /\
  fst (MT19937Ref.genrand_int32 (MT19937Ref.init_genrand 5489)) = 3499211612 /\
  (forall ent, fst (Uniform.random (Uniform.create ent (SeedNum (of_Z 5489))))
               <> fst (MT19937Ref.genrand_res53 (MT19937Ref.init_genrand 5489))).
Proof.
  split; [reflexivity|].
  split; [intro ent; vm_compute; reflexivity|].
  split; [vm_compute; reflexivity|].
  intros ent H. vm_compute in H. discriminate H.
Qed.

(** C4 (divergence).  On a [Roll.ts] manager seeded with 1, [d(2.9)]
    returns 3, above [floor(2.9) = 2]: [Roll.ts] scales to [[1, sides]]
    without [Math.floor]; the compiled copy, which floors, returns 2. *)
Theorem d_fractional_sides (math : MathLib) (fuel : nat) (ent : entropy) :
  option_map (fun '(x, _, _) => x)
    (Roll.d math fuel ent (Roll.create [] (SeedNum (of_Z 1)) None) (Fin (29 # 10)) None)
  = Some (of_Z 3) /\
  option_map (fun '(x, _, _) => x)
    (Roll.d_pub math fuel ent (Roll.create [] (SeedNum (of_Z 1)) None) (Fin (29 # 10)) None)
  = Some (of_Z 2).
Proof. split; vm_compute; reflexivity. Qed.

(** C8 (counterexample).  In [[-1, -1, 2]] the value [-1] occurs twice,
    the most of any value, yet [modes] returns the empty array: [-1] is
    not an array index, so [counts.forEach] never visits it. *)
Lemma modes_negative_counterexample :
  Elemstats.modes [of_Z (-1); of_Z (-1); of_Z 2] = [] /\
  max_count [of_Z (-1); of_Z (-1); of_Z 2] = 2 /\
  count_key (to_string (of_Z (-1))) [of_Z (-1); of_Z (-1); of_Z 2] = 2.
Proof. vm_compute. repeat split. Qed.

(** C9 (divergence).  [round] shifts the decimal point by appending
    [e<places>] to the string form of the value.  A finite value whose
    string form is in exponent notation, such as [1e-7] or [1e21], gives a
    string like [1e-7e0] that [Number] does not parse, so [round(1e-7, 0)]
    and [round(1e21, 0)] are [NaN] instead of [0] and [1e21]. *)
Theorem round_exponent_notation_nan :
  to_string (round_double (1 # 10000000)) = str "1e-7" /\
  Scaled.round (round_double (1 # 10000000)) (Fin 0) = NaN /\
  to_string (of_Z (10 ^ 21)) = str "1e+21" /\
  Scaled.round (of_Z (10 ^ 21)) (Fin 0) = NaN.
Proof. repeat split; vm_compute; reflexivity. Qed.

(** C10.  With an empty history (a fresh manager, or one right after
    [clearHistory()]) and no array argument, [mean()] and
    [standardDeviation()] throw a [TypeError] (the [reduce] without an
    initial value), which nothing catches, and [median()] returns [NaN]. *)
Theorem empty_history_stats (math : MathLib) :
  (forall ent s mh,
     let m := Roll.create ent s mh in
     Roll.mean m None = Throw TypeError /\
     Roll.stdDev math m None = Throw TypeError /\
     Roll.median m None = Ok NaN) /\
  (forall m0,
     let m := Roll.clearHistory m0 in
     Roll.mean m None = Throw TypeError /\
     Roll.stdDev math m None = Throw TypeError /\
     Roll.median m None = Ok NaN).
Proof.
  split; intros.
  - repeat split; reflexivity.
  - subst m. unfold Roll.clearHistory, History.set_max.
    destruct (is_safe_integer _); repeat split; reflexivity.
Qed.

Lemma of_Z_MAX : of_Z MAX_SAFE_INTEGER = Fin (inject_Z MAX_SAFE_INTEGER).
Proof. vm_compute. reflexivity. Qed.

Lemma of_Z_minus_one : of_Z (-1) = Fin (inject_Z (-1)).
Proof. vm_compute. reflexivity. Qed.

Lemma valid_uint_inv (x : num) :
  valid_uint x = true ->
  exists q, x = Fin q /\ is_integer (Fin q) = true /\
            (Qabs q <= inject_Z MAX_SAFE_INTEGER)%Q /\ (0 <= q)%Q.
Proof.
  destruct x as [q| | |]; try discriminate.
  unfold valid_uint, is_safe_integer, js_ge, js_le.
  intros H. apply andb_prop in H as [H1 H2].
  apply andb_prop in H1 as [Hint Habs].
  exists q. repeat split; auto.
  - apply Qle_bool_iff. exact Habs.
  - cbn [is_nan negb andb js_lt] in H2. unfold Qlt_bool in H2.
    rewrite negb_involutive in H2. apply Qle_bool_iff. exact H2.
Qed.

Lemma ensureUint_valid (x : num) :
  valid_uint x = true -> Uniform.ensureUint x = x.
Proof.
  intros H. destruct (valid_uint_inv x H) as (q & -> & Hint & Habs & Hpos).
  unfold Uniform.ensureUint. rewrite of_Z_MAX.
  replace (js_gt (Fin q) (Fin (inject_Z MAX_SAFE_INTEGER))) with false.
  2:{ symmetry. unfold js_gt, js_lt, Qlt_bool. apply negb_false_iff.
      apply Qle_bool_iff. eapply Qle_trans; [apply Qle_Qabs | exact Habs]. }
  replace (js_lt (Fin q) (Fin 0)) with false.
  2:{ symmetry. unfold js_lt, Qlt_bool. apply negb_false_iff.
      apply Qle_bool_iff. exact Hpos. }
  rewrite Hint. cbn [negb].
  unfold is_safe_integer. rewrite Hint.
  apply Qle_bool_iff in Habs. rewrite Habs. reflexivity.
Qed.

Lemma valid_uint_not_minus_one (x : num) :
  valid_uint x = true -> num_eqb (of_Z (-1)) x = false.
Proof.
  intros H. destruct (valid_uint_inv x H) as (q & -> & _ & _ & Hpos).
  rewrite of_Z_minus_one. unfold num_eqb.
  destruct (Qeq_bool (inject_Z (-1)) q) eqn:E; [|reflexivity].
  apply Qeq_bool_eq in E. unfold Qeq, Qle in *. simpl in *. lia.
Qed.

Lemma valid_elems (xs : list jsval) :
  forallb valid_elem xs = true ->
  forallb Uniform.is_num xs = true /\
  map Uniform.ensureUint (map Uniform.num_of_jsval xs) = map Uniform.num_of_jsval xs /\
  existsb (num_eqb (of_Z (-1))) (map Uniform.num_of_jsval xs) = false.
Proof.
  induction xs as [|v xs IH]; [auto|].
  cbn [forallb]. intros H. apply andb_prop in H as [Hv Hxs].
  destruct (IH Hxs) as (H1 & H2 & H3).
  destruct v as [x|]; [|discriminate]. cbn in Hv.
  cbn [forallb map existsb Uniform.is_num Uniform.num_of_jsval andb orb].
  rewrite H1, H2, H3, (ensureUint_valid x Hv), (valid_uint_not_minus_one x Hv).
  auto.
Qed.

Lemma init_valid_entropy (ent1 ent2 : list Z) (s : seed) (st : Uniform.state) :
  valid_seed s = true -> Uniform.init ent1 s st = Uniform.init ent2 s st.
Proof.
  destruct s as [x|xs|xs| | |]; intros H; try discriminate.
  - cbn [Uniform.init]. cbn in H. rewrite (ensureUint_valid x H).
    destruct (valid_uint_inv x H) as (q & -> & _ & _ & Hpos).
    replace (js_ge (Fin q) (Fin 0)) with true; [reflexivity|].
    symmetry. unfold js_ge, js_le. cbn [is_nan negb andb js_lt].
    unfold Qlt_bool. rewrite negb_involutive. apply Qle_bool_iff. exact Hpos.
  - destruct xs as [|v xs]; [discriminate|].
    assert (Hf : forallb valid_elem (v :: xs) = true) by exact H.
    destruct (valid_elems (v :: xs) Hf) as (H1 & H2 & H3).
    cbn [Uniform.init]. rewrite H1.
    unfold Uniform.init_array. cbn [map].
    cbn [map] in H2, H3. rewrite H2, H3. reflexivity.
Qed.

Lemma random_draws_uni (n : nat) (m : Roll.t) :
  random_draws n m = draws n (Roll.uni m).
Proof.
  revert m. induction n as [|n IH]; intros m; [reflexivity|].
  cbn [random_draws draws]. unfold Roll.random, Roll.uniform.
  destruct (Uniform.random (Roll.uni m)) as [x u]. rewrite IH. reflexivity.
Qed.

(** C2.  For a valid seed (a safe non-negative integer or a non-empty
    array of them) [init] takes no entropy, so generators, and [Roll.ts]
    managers, constructed with the same seed produce the same [N] draws
    whatever [createRandomSeed()] would return. *)
Theorem seeded_draws_deterministic (s : seed) :
  valid_seed s = true ->
  forall (ent1 ent2 : list Z) (mh1 mh2 : option num) (n : nat),
    draws n (Uniform.create ent1 s) = draws n (Uniform.create ent2 s) /\
    random_draws n (Roll.create ent1 s mh1) = random_draws n (Roll.create ent2 s mh2).
Proof.
  intros H ent1 ent2 mh1 mh2 n.
  assert (E : Uniform.create ent1 s = Uniform.create ent2 s)
    by (unfold Uniform.create; apply init_valid_entropy; exact H).
  rewrite !random_draws_uni. cbn [Roll.create Roll.uni]. rewrite E. auto.
Qed.

(** Three managers seeded with [[1, 2, 3]] give the same ten [random()]
    values. *)
Lemma seed123_witness :
  valid_seed seed123 = true /\
  random_draws 10 (Roll.create [] seed123 None) = random_draws 10 (Roll.create [4; 5] seed123 None) /\
  random_draws 10 (Roll.create [4; 5] seed123 None) = random_draws 10 (Roll.create [6] seed123 None).
Proof.
  assert (H : valid_seed seed123 = true) by (vm_compute; reflexivity).
  split; [exact H|]. split.
  - exact (proj2 (seeded_draws_deterministic seed123 H [] [4; 5] None None 10)).
  - exact (proj2 (seeded_draws_deterministic seed123 H [4; 5] [6] None None 10)).
Defined.

Lemma math_round_tie (z : Z) :
  math_round (Fin (inject_Z z + (1 # 2))%Q) = Fin (inject_Z (z + 1)).
Proof.
  unfold math_round.
  assert (Hf : Qfloor (inject_Z z + (1 # 2))%Q = z).
  { unfold Qfloor, inject_Z, Qplus. simpl.
    replace (z * 2 + 1) with (z * 2 + 1) by lia.
    rewrite Z.div_add_l by lia. change (1 / 2) with 0. lia. }
  rewrite Hf. unfold Qlt_bool, Qle_bool. simpl.
  match goal with |- context [Z.leb ?a ?b] => replace (Z.leb a b) with true end.
  - reflexivity.
  - symmetry. apply Z.leb_le. lia.
Qed.

(** Extra.  [round(value, places)] is
    [fix(Number(`${Math.round(Number(`${value}e${places}`))}e-${places}`))]:
    when [Number(`${value}e${places}`)] is [z + 1/2] the result is the
    NumericFix of [Number(`${z + 1}e-${places}`)], a tie toward [+Infinity]
    ([0.5 -> 1], [2.5 -> 3], [-0.5 -> 0], [-1.5 -> -1]). *)
Theorem round_ties_toward_plus_infinity (value places : num) (z : Z) :
  to_number (to_string value ++ "e"%char :: to_string places) = Fin (inject_Z z + (1 # 2))%Q ->
  Scaled.round value places =
  Scaled.ffix (to_number (to_string (Fin (inject_Z (z + 1))) ++ "e"%char :: "-"%char :: to_string places)) /\
  Scaled.round (Fin (1 # 2)) (Fin 0) = of_Z 1 /\
  Scaled.round (Fin (5 # 2)) (Fin 0) = of_Z 3 /\
  Scaled.round (Fin (-1 # 2)) (Fin 0) = Fin 0 /\
  Scaled.round (Fin (-3 # 2)) (Fin 0) = of_Z (-1).
Proof.
  intros H. split.
  - unfold Scaled.round. rewrite H, math_round_tie. reflexivity.
  - repeat split; vm_compute; reflexivity.
Qed.

Lemma round_tie_witness :
  to_number (to_string (Fin (-1 # 2)) ++ "e"%char :: to_string (Fin 0)) = Fin (inject_Z (-1) + (1 # 2))%Q /\
  Scaled.round (Fin (-1 # 2)) (Fin 0) =
  Scaled.ffix (to_number (to_string (Fin (inject_Z (-1 + 1))) ++ "e"%char :: "-"%char :: to_string (Fin 0))).
Proof.
  assert (H : to_number (to_string (Fin (-1 # 2)) ++ "e"%char :: to_string (Fin 0))
              = Fin (inject_Z (-1) + (1 # 2))%Q) by (vm_compute; reflexivity).
  split; [exact H|].
  exact (proj1 (round_ties_toward_plus_infinity (Fin (-1 # 2)) (Fin 0) (-1) H)).
Defined.

Lemma Qred_inject_Z (z : Z) : Qred (inject_Z z) = inject_Z z.
Proof.
  unfold Qred, inject_Z.
  pose proof (Z.ggcd_gcd z 1) as Hg. pose proof (Z.ggcd_correct_divisors z 1) as Hd.
  destruct (Z.ggcd z 1) as [g [a b]]. cbn [fst snd] in *.
  rewrite Z.gcd_1_r in Hg. subst g. destruct Hd as [Ha Hb].
  replace a with z by lia. replace b with 1 by lia. reflexivity.
Qed.

Lemma round_int_mag (A : Z) :
  0 < A <= 2 ^ 53 ->
  exists m e, round_mag A 1 = (m, e) /\ (e < 0 \/ m * 2 ^ e < 2 ^ 1024) /\
              (inject_Z m * two_pow_Q e == inject_Z A)%Q.
Proof.
  intros HA.
  assert (Hl : flog2 A 1 = Z.log2 A).
  { unfold flog2. change (Z.log2 1) with 0. rewrite Z.sub_0_r.
    destruct (Z.log2_spec A ltac:(lia)) as [H1 H2].
    pose proof (Z.log2_nonneg A).
    replace (Z.log2 A >=? 0) with true by (symmetry; apply Z.geb_le; lia).
    replace (1 * 2 ^ Z.log2 A <=? A) with true by (symmetry; apply Z.leb_le; lia).
    reflexivity. }
  assert (Hlog : Z.log2 A <= 53).
  { rewrite <- (Z.log2_pow2 53) by lia. apply Z.log2_le_mono. lia. }
  pose proof (Z.log2_nonneg A).
  unfold round_mag. rewrite Hl.
  destruct (Z.eq_dec (Z.log2 A) 53) as [E53|N53].
  - (* A = 2^53 *)
    assert (HA53 : A = 2 ^ 53).
    { destruct (Z.log2_spec A ltac:(lia)) as [H1 H2]. rewrite E53 in H1. lia. }
    subst A. rewrite E53. exists (2 ^ 52), 1.
    vm_compute. split; [reflexivity | split; [right; reflexivity | reflexivity]].
  - set (e := Z.max (Z.log2 A - 52) (-1074)).
    assert (He : e = Z.log2 A - 52) by (unfold e; lia).
    rewrite He.
    destruct (Z.eq_dec (Z.log2 A) 52) as [E52|N52].
    + rewrite E52. cbn -[Z.pow Z.mul Z.div Z.modulo].
      replace (1 * 2 ^ 0) with 1 by reflexivity.
      rewrite Z.div_1_r, Z.mod_1_r.
      exists A, 0. split; [reflexivity|]. split.
      * right. assert (A < 2 ^ 53) by (destruct (Z.log2_spec A ltac:(lia)); rewrite E52 in *; lia).
        rewrite Z.mul_1_r. lia.
      * unfold two_pow_Q. simpl. unfold Qeq. simpl. lia.
    + assert (Hneg : (Z.log2 A - 52 >=? 0) = false) by (rewrite Z.geb_leb; apply Z.leb_gt; lia).
      rewrite Hneg.
      set (k := - (Z.log2 A - 52)).
      assert (Hk : 0 < k) by (unfold k; lia).
      assert (Hp : 0 < 2 ^ k) by (apply Z.pow_pos_nonneg; lia).
      rewrite Z.div_1_r, Z.mod_1_r.
      exists (A * 2 ^ k), (Z.log2 A - 52). split.
      * replace (1 <? 2 * 0) with false by reflexivity.
        replace (2 * 0 =? 1) with false by reflexivity. reflexivity.
      * split; [left; lia|].
        unfold two_pow_Q. rewrite Hneg. fold k.
        unfold Qeq, inject_Z, Qmult. simpl.
        rewrite Z2Pos.id by lia. lia.
Qed.

Lemma of_Z_exact (z : Z) :
  Z.abs z <= 2 ^ 53 -> of_Z z = Fin (inject_Z z).
Proof.
  intros Hz. unfold of_Z, round_double.
  cbn [Qnum Qden inject_Z].
  destruct (Z.eq_dec z 0) as [->|Hnz]; [reflexivity|].
  replace (Z.abs z =? 0) with false by (symmetry; apply Z.eqb_neq; lia).
  destruct (round_int_mag (Z.abs z) ltac:(lia)) as (m & e & Hr & Hov & Hq).
  rewrite Hr.
  replace ((e >=? 0) && (2 ^ 1024 <=? m * 2 ^ e)) with false.
  2:{ destruct Hov as [Hov|Hov].
      - replace (e >=? 0) with false by (symmetry; rewrite Z.geb_leb; apply Z.leb_gt; lia). reflexivity.
      - replace (2 ^ 1024 <=? m * 2 ^ e) with false by (symmetry; apply Z.leb_gt; lia).
        symmetry; apply andb_false_r. }
  rewrite (Qred_complete _ _ Hq), Qred_inject_Z.
  destruct (z <? 0) eqn:Hs.
  - apply Z.ltb_lt in Hs. unfold Qopp, inject_Z. simpl. f_equal. f_equal. lia.
  - apply Z.ltb_ge in Hs. f_equal. f_equal. lia.
Qed.

Lemma skipn_S_tl {A : Type} (n : nat) (l : list A) : skipn (S n) l = tl (skipn n l).
Proof.
  revert l. induction n as [|n IH]; intros [|a l]; try reflexivity.
  cbn [skipn]. apply IH.
Qed.

Lemma lastn_short {A : Type} (K : nat) (l : list A) :
  (List.length l <= K)%nat -> lastn K l = l.
Proof. intros H. unfold lastn. replace (List.length l - K)%nat with 0%nat by lia. reflexivity. Qed.

Lemma lastn_length {A : Type} (K : nat) (l : list A) :
  List.length (lastn K l) = Nat.min K (List.length l).
Proof. unfold lastn. rewrite length_skipn. lia. Qed.

Lemma lastn_snoc {A : Type} (K : nat) (l : list A) (x : A) :
  (1 <= K)%nat ->
  lastn K (l ++ [x]) =
  (if (K <=? List.length l)%nat then tl (lastn K l) else lastn K l) ++ [x].
Proof.
  intros HK. destruct (Nat.leb_spec K (List.length l)) as [H|H].
  - unfold lastn. rewrite length_app. cbn [List.length].
    replace (List.length l + 1 - K)%nat with (S (List.length l - K)) by lia.
    rewrite skipn_S_tl, skipn_app.
    replace (List.length l - K - List.length l)%nat with 0%nat by lia.
    cbn [skipn].
    destruct (skipn (List.length l - K) l) as [|a r] eqn:E.
    + apply (f_equal (@List.length A)) in E. rewrite length_skipn in E. cbn in E. lia.
    + reflexivity.
  - rewrite !lastn_short; [reflexivity | lia | rewrite length_app; cbn; lia].
Qed.

Lemma js_ge_Z (a b : Z) : js_ge (Fin (inject_Z a)) (Fin (inject_Z b)) = (b <=? a).
Proof.
  unfold js_ge, js_le. cbn [is_nan negb andb js_lt]. unfold Qlt_bool.
  rewrite negb_involutive. unfold Qle_bool. cbn. rewrite !Z.mul_1_r. reflexivity.
Qed.

Lemma push_lastn (K : nat) (l : list num) (x : num) :
  (1 <= K)%nat -> (Z.of_nat K <= 2 ^ 53) ->
  History.push [x] (History.mk (map single (lastn K l)) (Fin (inject_Z (Z.of_nat K)))) =
  History.mk (map single (lastn K (l ++ [x]))) (Fin (inject_Z (Z.of_nat K))).
Proof.
  intros HK Hbig. unfold History.push. cbn [History.entries History.max History.evict List.length].
  unfold History.len. rewrite length_map, lastn_length.
  rewrite of_Z_exact by lia. rewrite js_ge_Z.
  rewrite lastn_snoc by exact HK.
  destruct (Nat.leb_spec K (List.length l)) as [H|H].
  - replace (Z.of_nat K <=? Z.of_nat (Nat.min K (List.length l))) with true
      by (symmetry; apply Z.leb_le; lia).
    rewrite map_app. f_equal. f_equal.
    destruct (lastn K l); reflexivity.
  - replace (Z.of_nat K <=? Z.of_nat (Nat.min K (List.length l))) with false
      by (symmetry; apply Z.leb_gt; lia).
    rewrite map_app. reflexivity.
Qed.

Lemma step_pushes (math : MathLib) (fuel : nat) (ent : entropy) (m : Roll.t) (o : op)
    (r : num) (m' : Roll.t) (ent' : entropy) :
  step math fuel ent m o = Some (r, m', ent') ->
  Roll.hist m' = History.push [r] (Roll.hist m).
Proof.
  destruct o as [|skew|sides skew|skew]; cbn [step].
  - unfold Roll.uniform. destruct (Uniform.random (Roll.uni m)).
    intros H. injection H as <- <- _. reflexivity.
  - unfold Roll.gaussian.
    destruct (Gaussian.Gaussian _ _ _ _ _) as [[[x u] e]|]; [|discriminate].
    intros H. injection H as <- <- _. reflexivity.
  - unfold Roll.d, Roll.d_private. destruct (Uniform.random (Roll.uni m)).
    intros H. injection H as <- <- _. reflexivity.
  - unfold Roll.random, Roll.uniform. destruct (Uniform.random (Roll.uni m)).
    intros H. injection H as <- <- _. reflexivity.
Qed.

Lemma run_history (math : MathLib) (fuel : nat) (K : nat) (ops : list op) :
  (1 <= K)%nat -> (Z.of_nat K <= 2 ^ 53) ->
  forall ent m prev rs m' ent',
    Roll.hist m = History.mk (map single (lastn K prev)) (Fin (inject_Z (Z.of_nat K))) ->
    run math fuel ent m ops = Some (rs, m', ent') ->
    List.length rs = List.length ops /\
    Roll.hist m' = History.mk (map single (lastn K (prev ++ rs))) (Fin (inject_Z (Z.of_nat K))).
Proof.
  intros HK Hbig. induction ops as [|o os IH]; intros ent m prev rs m' ent' Hm Hrun.
  - cbn in Hrun. injection Hrun as <- <- <-. rewrite app_nil_r. auto.
  - cbn [run] in Hrun.
    destruct (step math fuel ent m o) as [[[r m1] e1]|] eqn:Hs; [|discriminate].
    destruct (run math fuel e1 m1 os) as [[[rs1 m2] e2]|] eqn:Hr; [|discriminate].
    injection Hrun as <- <- <-.
    assert (Hm1 : Roll.hist m1 =
                  History.mk (map single (lastn K (prev ++ [r]))) (Fin (inject_Z (Z.of_nat K)))).
    { rewrite (step_pushes _ _ _ _ _ _ _ _ Hs), Hm. apply push_lastn; assumption. }
    destruct (IH e1 m1 (prev ++ [r]) rs1 m2 e2 Hm1 Hr) as [Hl Hh].
    split; [cbn; lia|]. rewrite Hh, <- app_assoc. reflexivity.
Qed.

Lemma values_single (l : list num) :
  History.values (History.mk (map single l) (Fin 0)) = l.
Proof.
  unfold History.values. cbn. rewrite map_map. cbn. apply map_id.
Qed.

(** C5.  For a [Roll.ts] manager built with [maxHistory = k], a positive
    safe integer, after any sequence of [uniform]/[gaussian]/[d]/[random]
    calls (each inserts one value) the history is exactly the last [k]
    inserted values in insertion order, and its length is [min(k, n)] for
    [n] insertions: never above [k], and exactly [k] once more than [k]
    values went in (one oldest-first eviction per insertion when full). *)
Theorem history_keeps_last_k (math : MathLib) (fuel : nat) (ent : entropy)
    (ent0 : list Z) (s : seed) (k : Z) (ops : list op) :
  1 <= k <= MAX_SAFE_INTEGER ->
  match run math fuel ent (Roll.create ent0 s (Some (of_Z k))) ops with
  | Some (rs, m', _) =>
      List.length rs = List.length ops /\
      Roll.history m' = lastn (Z.to_nat k) rs /\
      List.length (Roll.history m') = Nat.min (Z.to_nat k) (List.length rs)
  | None => True
  end.
Proof.
  intros Hk.
  destruct (run math fuel ent (Roll.create ent0 s (Some (of_Z k))) ops)
    as [[[rs m'] e']|] eqn:Hr; [|exact I].
  assert (HK : (1 <= Z.to_nat k)%nat) by lia.
  assert (Hbig : Z.of_nat (Z.to_nat k) <= 2 ^ 53) by (unfold MAX_SAFE_INTEGER in Hk; lia).
  assert (H0 : Roll.hist (Roll.create ent0 s (Some (of_Z k))) =
               History.mk (map single (lastn (Z.to_nat k) [])) (Fin (inject_Z (Z.of_nat (Z.to_nat k))))).
  { cbn. rewrite of_Z_exact by (unfold MAX_SAFE_INTEGER in Hk; lia).
    rewrite Z2Nat.id by lia. reflexivity. }
  destruct (run_history math fuel (Z.to_nat k) ops HK Hbig ent _ [] rs m' e' H0 Hr) as [Hl Hh].
  unfold Roll.history. rewrite Hh. cbn [app].
  unfold History.values. cbn [History.entries]. rewrite map_map. cbn. rewrite map_id.
  split; [exact Hl|]. split; [reflexivity|]. apply lastn_length.
Qed.

Lemma history_witness :
  (1 <= 2 <= MAX_SAFE_INTEGER) /\
  match run sample_math 1 (Streams.const []) (Roll.create [] (SeedNum (of_Z 5489)) (Some (of_Z 2))) ops5 with
  | Some (rs, m', _) =>
      List.length rs = List.length ops5 /\
      Roll.history m' = lastn (Z.to_nat 2) rs /\
      List.length (Roll.history m') = Nat.min (Z.to_nat 2) (List.length rs)
  | None => True
  end.
Proof.
  assert (H : 1 <= 2 <= MAX_SAFE_INTEGER) by (unfold MAX_SAFE_INTEGER; lia).
  split; [exact H|].
  exact (history_keeps_last_k sample_math 1 (Streams.const []) [] (SeedNum (of_Z 5489)) 2 ops5 H).
Defined.

Lemma differs_from_sound (o : option (num * Roll.t * entropy)) (p : num * Roll.t) :
  differs_from o p = true -> ~ (forall r m' e', o = Some (r, m', e') -> p = (r, m')).
Proof.
  destruct o as [[[r m'] e']|]; [|discriminate]. cbn. intros Hd H.
  rewrite (H r m' e' eq_refl) in Hd. cbn in Hd. rewrite Z.eqb_refl in Hd. discriminate.
Qed.

(** C3 (counterexample).  On a [Roll.ts] manager seeded with 5489,
    [random(0)] does not draw as [gaussian(0)] does: [random] ignores its
    argument and takes one uniform draw, [gaussian] takes two, so the
    generator states afterwards differ. *)
Lemma random_skew_counterexample :
  ~ (forall math fuel ent m s r m' ent',
       Roll.gaussian math fuel ent m (Some s) = Some (r, m', ent') ->
       Roll.random m (Some s) = (r, m')).
Proof.
  intros H.
  apply (differs_from_sound (Roll.gaussian sample_math 3%nat (Streams.const []) m5489 (Some (Fin 0)))
                            (Roll.random m5489 (Some (Fin 0)))).
  - vm_compute. reflexivity.
  - exact (H sample_math 3%nat (Streams.const []) m5489 (Fin 0)).
Qed.

(** C6 (divergence).  When the first rescaled Box-Muller value is outside
    [[0, 1]], [Gaussian] resamples from a fresh [Uniform] but passes it the
    already converted skew, and raises the resampled result to the
    converted skew again: for [skew = 0] the converted skew is 1, which the
    recursive call converts to 4, so the result is [fix(fix(r ** 4) ** 1)]
    instead of [fix(r ** 1)]. *)
Theorem gaussian_resample_reconverts_skew (math : MathLib) (fuel : nat) (ent : entropy)
    (g : Uniform.state) (skew u v : num) (g1 g2 : Uniform.state) :
  Gaussian.draw_nonzero (S fuel) (Fin 0) g = Some (u, g1) ->
  Gaussian.draw_nonzero (S fuel) (Fin 0) g1 = Some (v, g2) ->
  Gaussian.out_of_range (Gaussian.rescaled math u v) = true ->
  Gaussian.Gaussian math (S fuel) ent g skew = resampled math fuel ent skew g2 /\
  Gaussian.scaleSkew (Fin 0) = of_Z 1 /\ Gaussian.scaleSkew (of_Z 1) = of_Z 4.
Proof.
  intros H1 H2 H3. split.
  - cbn [Gaussian.Gaussian]. rewrite H1, H2, H3. unfold resampled.
    destruct (Gaussian.Gaussian math fuel _ _ _) as [[[n g'] e']|]; reflexivity.
  - split; vm_compute; reflexivity.
Qed.

(** Seed 5489 with [far_math]: the first value is out of range. *)
Lemma gaussian_resample_witness :
  Gaussian.Gaussian far_math 3%nat (Streams.const [7; 8; 9]) g5489 (Fin 0) =
  resampled far_math 2%nat (Streams.const [7; 8; 9]) (Fin 0) g5489_2.
Proof.
  assert (H1 : Gaussian.draw_nonzero 3%nat (Fin 0) g5489 = Some (u5489, g5489_1))
    by (vm_compute; reflexivity).
  assert (H2 : Gaussian.draw_nonzero 3%nat (Fin 0) g5489_1 = Some (v5489, g5489_2))
    by (vm_compute; reflexivity).
  assert (H3 : Gaussian.out_of_range (Gaussian.rescaled far_math u5489 v5489) = true)
    by (vm_compute; reflexivity).
  exact (proj1 (gaussian_resample_reconverts_skew far_math 2%nat (Streams.const [7; 8; 9])
                  g5489 (Fin 0) u5489 v5489 g5489_1 g5489_2 H1 H2 H3)).
Defined.

(** C3 (amended).  In [Roll.ts], [random(s)] is [uniform()] whatever [s]
    is, [0] included; in the compiled copy [random(s)] with a number [s]
    is [gaussian(s)] and [random()] is [uniform()]. *)
Theorem random_dispatch (math : MathLib) (fuel : nat) (ent : entropy) (m : Roll.t) (s : num) :
  Roll.random m (Some s) = Roll.uniform m /\
  Roll.random m None = Roll.uniform m /\
  Roll.random_pub math fuel ent m (Some s) = Roll.gaussian math fuel ent m (Some s) /\
  Roll.random_pub math fuel ent m None = (let '(r, m') := Roll.uniform m in Some (r, m', ent)).
Proof. repeat split. Qed.

(** C7 (divergence).  The constructor stores [maxHistory] unchecked, so a
    manager can have a maximum such as [2.5].  [seed(s)] with a defined
    [s] calls [clearHistory], which re-applies the old maximum through
    [max(size)]; that setter accepts only safe integers, so every finite
    maximum that is not a safe integer is lost and [maxHistory()] becomes
    [Infinity], against "retain the current [maxHistory]". *)
Theorem seed_forgets_unsafe_max (ent : list Z) (s : seed) (m : Roll.t) :
  is_defined s = true ->
  is_safe_integer (History.max (Roll.hist m)) = false ->
  History.max (Roll.hist m) <> PInf ->
  Roll.history (Roll.seed_set ent s m) = [] /\
  History.max (Roll.hist (Roll.seed_set ent s m)) = PInf /\
  History.max (Roll.hist (Roll.seed_set ent s m)) <> History.max (Roll.hist m).
Proof.
  intros Hs Hu Hi. destruct s; try discriminate Hs;
  unfold Roll.seed_set, Roll.clearHistory, History.set_max; cbn [Roll.hist Roll.uni];
  rewrite Hu; (split; [reflexivity| split; [reflexivity| intros E; apply Hi; symmetry; exact E]]).
Qed.

(** [new Roll({ seed: 1, maxHistory: 2.5 })] after one [uniform()]: its
    history is not empty, and [seed(2)] turns [maxHistory()] into
    [Infinity]. *)
Lemma seed_forgets_unsafe_max_witness :
  Roll.history m_frac <> [] /\
  History.max (Roll.hist m_frac) = Fin (5 # 2) /\
  is_defined (SeedNum (of_Z 2)) = true /\
  is_safe_integer (History.max (Roll.hist m_frac)) = false /\
  History.max (Roll.hist m_frac) <> PInf /\
  Roll.history (Roll.seed_set [] (SeedNum (of_Z 2)) m_frac) = [] /\
  History.max (Roll.hist (Roll.seed_set [] (SeedNum (of_Z 2)) m_frac)) = PInf /\
  History.max (Roll.hist (Roll.seed_set [] (SeedNum (of_Z 2)) m_frac)) <> History.max (Roll.hist m_frac).
Proof.
  assert (H1 : is_defined (SeedNum (of_Z 2)) = true) by reflexivity.
  assert (H2 : is_safe_integer (History.max (Roll.hist m_frac)) = false) by (vm_compute; reflexivity).
  assert (H3 : History.max (Roll.hist m_frac) <> PInf) by (vm_compute; discriminate).
  split; [vm_compute; discriminate|]. split; [vm_compute; reflexivity|].
  split; [exact H1|]. split; [exact H2|]. split; [exact H3|].
  exact (seed_forgets_unsafe_max [] (SeedNum (of_Z 2)) m_frac H1 H2 H3).
Defined.

(** Extra.  [seed(s)] with [s] not [undefined] empties the history and
    keeps [maxHistory()] when it is a safe integer (every value the
    [maxHistory(size)] setter accepts); any other maximum becomes
    [Infinity]. *)
Theorem seed_clears_history (ent : list Z) (s : seed) (m : Roll.t) :
  is_defined s = true ->
  Roll.history (Roll.seed_set ent s m) = [] /\
  History.max (Roll.hist (Roll.seed_set ent s m)) =
  (if is_safe_integer (History.max (Roll.hist m)) then History.max (Roll.hist m) else PInf).
Proof.
  intros Hs. destruct s; try discriminate Hs;
  unfold Roll.seed_set, Roll.clearHistory, History.set_max; cbn [Roll.hist Roll.uni];
  destruct (is_safe_integer (History.max (Roll.hist m))); split; reflexivity.
Qed.

Lemma seed_clears_history_witness :
  is_defined (SeedNum (of_Z 2)) = true /\
  Roll.history (Roll.seed_set [] (SeedNum (of_Z 2)) m5489) = [] /\
  History.max (Roll.hist (Roll.seed_set [] (SeedNum (of_Z 2)) m5489)) =
  (if is_safe_integer (History.max (Roll.hist m5489)) then History.max (Roll.hist m5489) else PInf).
Proof.
  assert (H : is_defined (SeedNum (of_Z 2)) = true) by reflexivity.
  split; [exact H|].
  exact (seed_clears_history [] (SeedNum (of_Z 2)) m5489 H).
Defined.

Lemma modes_fold (arr : list num) :
  modes arr =
  let '(counts, max) := fold_left modes_step arr ([], 0) in
  map (fun '(index, _) => Scaled.ffix (of_Z index))
      (filter (fun '(_, count) => count =? max) (fold_left index_step counts [])).
Proof. reflexivity. Qed.

Lemma dv_acc (l : jstr) (a : Z) :
  fold_left (fun acc c => 10 * acc + (Z.of_nat (nat_of_ascii c) - 48)) l a
  = a * 10 ^ Z.of_nat (List.length l) + digits_value l.
Proof.
  revert a. induction l as [|c l IH]; intros a.
  - unfold digits_value. simpl. lia.
  - unfold digits_value. cbn [fold_left List.length]. rewrite !IH.
    rewrite Nat2Z.inj_succ, Z.pow_succ_r by lia. ring.
Qed.

Lemma dv_cons (c : ascii) (r : jstr) :
  digits_value (c :: r)
  = (Z.of_nat (nat_of_ascii c) - 48) * 10 ^ Z.of_nat (List.length r) + digits_value r.
Proof. unfold digits_value at 1. simpl. rewrite dv_acc. ring. Qed.

Lemma is_digit_range (c : ascii) :
  is_digit c = true -> 0 <= Z.of_nat (nat_of_ascii c) - 48 <= 9.
Proof.
  unfold is_digit. intros H. apply andb_true_iff in H as [H1 H2].
  apply Nat.leb_le in H1. apply Nat.leb_le in H2. lia.
Qed.

Lemma dv_bound (l : jstr) :
  Scaled.all_digits l = true -> 0 <= digits_value l < 10 ^ Z.of_nat (List.length l).
Proof.
  induction l as [|c l IH]; intros H.
  - unfold digits_value. simpl. lia.
  - unfold Scaled.all_digits in H. simpl in H. apply andb_true_iff in H as [Hc Hl].
    specialize (IH Hl). pose proof (is_digit_range c Hc).
    rewrite dv_cons. simpl List.length. rewrite Nat2Z.inj_succ, Z.pow_succ_r by lia.
    pose proof (Z.pow_pos_nonneg 10 (Z.of_nat (List.length l))). nia.
Qed.

Lemma digits_inj (l1 l2 : jstr) :
  List.length l1 = List.length l2 -> Scaled.all_digits l1 = true -> Scaled.all_digits l2 = true ->
  digits_value l1 = digits_value l2 -> l1 = l2.
Proof.
  revert l2. induction l1 as [|c1 r1 IH]; intros [|c2 r2] Hl H1 H2 Hv; try discriminate.
  - reflexivity.
  - simpl in Hl. injection Hl as Hl.
    unfold Scaled.all_digits in H1, H2. simpl in H1, H2.
    apply andb_true_iff in H1 as [Hc1 Hr1]. apply andb_true_iff in H2 as [Hc2 Hr2].
    pose proof (dv_bound r1 Hr1) as B1. pose proof (dv_bound r2 Hr2) as B2.
    rewrite !dv_cons in Hv. rewrite <- Hl in Hv, B2.
    set (P := 10 ^ Z.of_nat (List.length r1)) in *.
    assert (HP : P <> 0) by lia.
    assert (Hd : Z.of_nat (nat_of_ascii c1) - 48 = Z.of_nat (nat_of_ascii c2) - 48).
    { destruct (Z.lt_trichotomy (Z.of_nat (nat_of_ascii c1) - 48) (Z.of_nat (nat_of_ascii c2) - 48))
        as [Hlt | [Heq | Hlt]]; [nia | exact Heq | nia]. }
    assert (Hn : nat_of_ascii c1 = nat_of_ascii c2) by lia.
    rewrite <- (ascii_nat_embedding c1), <- (ascii_nat_embedding c2), Hn.
    f_equal. apply IH; auto. lia.
Qed.

Lemma canonical_lower (c : ascii) (r : jstr) :
  Scaled.all_digits (c :: r) = true -> (c =? "0")%char = false ->
  10 ^ Z.of_nat (List.length r) <= digits_value (c :: r) < 10 ^ (Z.of_nat (List.length r) + 1).
Proof.
  intros H Hc. pose proof (dv_bound _ H) as B. simpl List.length in B.
  rewrite Nat2Z.inj_succ in B. unfold Z.succ in B. split; [|exact (proj2 B)].
  unfold Scaled.all_digits in H. simpl in H. apply andb_true_iff in H as [H1 H2].
  pose proof (is_digit_range c H1). pose proof (dv_bound r H2).
  assert (Hn : nat_of_ascii c <> 48%nat).
  { intros E. apply Ascii.eqb_neq in Hc. apply Hc.
    rewrite <- (ascii_nat_embedding c), E. reflexivity. }
  rewrite dv_cons. nia.
Qed.

Lemma index_of_key_inj (k1 k2 : jstr) (i : Z) :
  index_of_key k1 = Some i -> index_of_key k2 = Some i -> k1 = k2.
Proof.
  unfold index_of_key.
  destruct k1 as [|c1 r1]; [discriminate|]. destruct k2 as [|c2 r2]; [discriminate|].
  destruct (Scaled.all_digits (c1 :: r1)) eqn:D1; [|discriminate].
  destruct (Scaled.all_digits (c2 :: r2)) eqn:D2; [|discriminate].
  destruct (c1 =? "0")%char eqn:Z1; destruct (c2 =? "0")%char eqn:Z2; simpl;
    destruct (List.length r1 =? 0)%nat eqn:L1; destruct (List.length r2 =? 0)%nat eqn:L2; simpl;
    try discriminate;
    destruct (digits_value (c1 :: r1) <=? 4294967294); try discriminate;
    destruct (digits_value (c2 :: r2) <=? 4294967294); try discriminate;
    intros E1 E2; injection E1 as E1; injection E2 as E2; subst i.
  all: assert (H0 : digits_value ["0"%char] = 0) by reflexivity.
  all: first
    [ apply Ascii.eqb_eq in Z1; apply Ascii.eqb_eq in Z2;
      apply Nat.eqb_eq in L1; apply length_zero_iff_nil in L1;
      apply Nat.eqb_eq in L2; apply length_zero_iff_nil in L2; subst; reflexivity
    | apply Ascii.eqb_eq in Z1; apply Nat.eqb_eq in L1; apply length_zero_iff_nil in L1; subst;
      pose proof (canonical_lower _ _ D2 Z2); rewrite H0 in E2; lia
    | apply Ascii.eqb_eq in Z2; apply Nat.eqb_eq in L2; apply length_zero_iff_nil in L2; subst;
      pose proof (canonical_lower _ _ D1 Z1); rewrite H0 in E2; lia
    | pose proof (canonical_lower _ _ D1 Z1) as B1; pose proof (canonical_lower _ _ D2 Z2) as B2;
      rewrite <- E2 in B1;
      assert (Hl : List.length r1 = List.length r2) by
        (destruct (Nat.lt_trichotomy (List.length r1) (List.length r2)) as [H|[H|H]];
         [ pose proof (Z.pow_le_mono_r 10 (Z.of_nat (List.length r1) + 1) (Z.of_nat (List.length r2))); lia
         | exact H
         | pose proof (Z.pow_le_mono_r 10 (Z.of_nat (List.length r2) + 1) (Z.of_nat (List.length r1))); lia ]);
      apply digits_inj; auto; simpl; congruence ].
Qed.

Lemma jstr_eqb_eq (a b : jstr) : jstr_eqb a b = true <-> a = b.
Proof. unfold jstr_eqb. destruct (list_eq_dec ascii_dec a b); split; congruence. Qed.

Lemma bump_spec (k : jstr) (cs : list (jstr * Z)) :
  NoDup (map fst cs) ->
  let '(cs', c) := bump k cs in
  NoDup (map fst cs') /\
  (forall k', In k' (map fst cs') <-> k' = k \/ In k' (map fst cs)) /\
  (forall k' c', In (k', c') cs' <-> (k' <> k /\ In (k', c') cs) \/ (k' = k /\ c' = c)) /\
  (forall c0, In (k, c0) cs -> c = c0 + 1) /\
  (~ In k (map fst cs) -> c = 1).
Proof.
  induction cs as [|[k1 c1] r IH]; intros Hnd.
  - simpl. split; [constructor; [intros []|constructor]|].
    split; [intros k'; split; intros [H|H]; auto; contradiction|].
    split; [intros k' c'; split; [intros [H|[]]; injection H as <- <-; auto
                                  | intros [[_ []]|[-> ->]]; left; reflexivity]|].
    split; [intros c0 []|auto].
  - simpl in Hnd. inversion Hnd as [|? ? Hk1 Hndr]; subst.
    simpl. destruct (jstr_eqb k k1) eqn:E.
    + apply jstr_eqb_eq in E. subst k1. simpl.
      split; [constructor; assumption|].
      split; [intros k'; simpl; split;
              [intros [H|H]; [left; congruence|right; right; exact H]
              |intros [H|[H|H]]; [left; congruence|left; exact H|right; exact H]]|].
      split.
      * intros k' c'. split.
        -- intros [H|H].
           ++ injection H as <- <-. right. auto.
           ++ left. split; [|right; exact H].
              intros ->. apply Hk1. apply in_map_iff. exists (k, c'). auto.
        -- intros [[Hne [H|H]]|[-> ->]].
           ++ injection H as <- <-. contradiction.
           ++ right. exact H.
           ++ left. reflexivity.
      * split.
        -- intros c0 [H|H].
           ++ injection H as <-. reflexivity.
           ++ exfalso. apply Hk1. apply in_map_iff. exists (k, c0). auto.
        -- intros H. exfalso. apply H. left. reflexivity.
    + assert (Hne : k <> k1) by (intros ->; rewrite (proj2 (jstr_eqb_eq k1 k1) eq_refl) in E; discriminate).
      specialize (IH Hndr). destruct (bump k r) as [r' n] eqn:Eb.
      destruct IH as (IH1 & IH2 & IH3 & IH4 & IH5). simpl.
      split; [constructor; [rewrite IH2; intros [H|H]; [congruence|contradiction]|exact IH1]|].
      split; [intros k'; rewrite IH2; tauto|].
      split.
      * intros k' c'. rewrite IH3. split.
        -- intros [H|[[H1 H2]|[H1 H2]]].
           ++ injection H as <- <-. left. split; [congruence|left; reflexivity].
           ++ left. split; [exact H1|right; exact H2].
           ++ right. split; assumption.
        -- intros [[H1 [H|H]]|[H1 H2]].
           ++ left. exact H.
           ++ right. left. split; assumption.
           ++ right. right. split; assumption.
      * split.
        -- intros c0 [H|H]; [injection H as -> ->; congruence|apply IH4; exact H].
        -- intros H. apply IH5. intros H'. apply H. right. exact H'.
Qed.

Lemma count_key_snoc (k : jstr) (p : list num) (x : num) :
  count_key k (p ++ [x]) = count_key k p + (if jstr_eqb (to_string x) k then 1 else 0).
Proof.
  unfold count_key. rewrite filter_app, length_app, Nat2Z.inj_add. simpl.
  destruct (jstr_eqb (to_string x) k); simpl; lia.
Qed.

Lemma count_key_absent (k : jstr) (p : list num) :
  (forall x, In x p -> to_string x <> k) -> count_key k p = 0.
Proof.
  intros H. unfold count_key. induction p as [|y p IH]; [reflexivity|].
  simpl. destruct (jstr_eqb (to_string y) k) eqn:E.
  - apply jstr_eqb_eq in E. exfalso. apply (H y); [left; reflexivity|exact E].
  - apply IH. intros x Hx. apply H. right. exact Hx.
Qed.

(** What the counting loop of [modes] has computed after a prefix [p]. *)
Lemma modes_fold_inv (p : list num) :
  let '(cs, mx) := fold_left modes_step p ([], 0) in
  NoDup (map fst cs) /\
  (forall k c, In (k, c) cs -> c = count_key k p) /\
  (forall k, In k (map fst cs) <-> exists x, In x p /\ to_string x = k) /\
  (forall k c, In (k, c) cs -> c <= mx) /\
  ((cs = [] /\ mx = 0) \/ exists k, In (k, mx) cs).
Proof.
  induction p as [|x p IH] using rev_ind.
  - simpl. split; [constructor|]. split; [intros k c []|].
    split; [intros k; split; [intros []|intros (x & [] & _)]|].
    split; [intros k c []|left; auto].
  - rewrite fold_left_app. destruct (fold_left modes_step p ([], 0)) as [cs mx].
    destruct IH as (Hnd & Hcnt & Hkeys & Hle & Hex).
    simpl. pose proof (bump_spec (to_string x) cs Hnd) as B.
    destruct (bump (to_string x) cs) as [cs' c] eqn:Eb.
    destruct B as (B1 & B2 & B3 & B4 & B5).
    assert (Hc : c = count_key (to_string x) p + 1).
    { destruct (in_dec (list_eq_dec ascii_dec) (to_string x) (map fst cs)) as [Hin|Hin].
      - apply in_map_iff in Hin as [[k0 c0] [Ek Hin]]. simpl in Ek. subst k0.
        rewrite (B4 c0 Hin). rewrite (Hcnt _ _ Hin). reflexivity.
      - rewrite (B5 Hin). rewrite count_key_absent; [reflexivity|].
        intros y Hy Ey. apply Hin. apply Hkeys. exists y. auto. }
    split; [exact B1|].
    split.
    { intros k c' H. rewrite count_key_snoc. apply B3 in H as [[Hne H]|[-> ->]].
      - rewrite (Hcnt _ _ H). destruct (jstr_eqb (to_string x) k) eqn:E; [|lia].
        apply jstr_eqb_eq in E. congruence.
      - rewrite (proj2 (jstr_eqb_eq _ _) eq_refl). exact Hc. }
    split.
    { intros k. rewrite B2, Hkeys. split.
      - intros [->|(y & Hy & Ey)]; [exists x|exists y]; rewrite in_app_iff; simpl; auto.
      - intros (y & Hy & Ey). apply in_app_iff in Hy as [Hy|[<-|[]]]; [right; exists y; auto|left; auto]. }
    split.
    { intros k c' H. apply B3 in H as [[_ H]|[_ ->]].
      - specialize (Hle _ _ H). destruct (c >? mx) eqn:E; [apply Z.gtb_lt in E|]; lia.
      - destruct (c >? mx) eqn:E; [lia|]. rewrite Z.gtb_ltb in E; apply Z.ltb_ge in E. lia. }
    destruct (c >? mx) eqn:E.
    { right. exists (to_string x). apply B3. right. auto. }
    right. rewrite Z.gtb_ltb in E; apply Z.ltb_ge in E.
    destruct Hex as [[-> ->]|[k Hk]].
    + exfalso. rewrite (B5 (fun H => H)) in E. lia.
    + exists k. apply B3. left. split; [|exact Hk].
      intros ->. rewrite (B4 _ Hk) in E. lia.
Qed.

Lemma insert_idx_In (x y : Z * Z) (l : list (Z * Z)) :
  In y (insert_idx x l) <-> y = x \/ In y l.
Proof.
  induction l as [|a l IH]; simpl.
  - split; [intros [H|[]]; auto|intros [H|[]]; auto].
  - destruct (fst x <? fst a); simpl; rewrite ?IH; split; intuition congruence.
Qed.

Lemma insert_idx_sorted (x : Z * Z) (l : list (Z * Z)) :
  Sorted fst_lt l -> ~ In (fst x) (map fst l) -> Sorted fst_lt (insert_idx x l).
Proof.
  induction l as [|a l IH]; intros Hs Hn; simpl.
  - repeat constructor.
  - destruct (fst x <? fst a) eqn:E.
    + apply Z.ltb_lt in E. constructor; [exact Hs|constructor; exact E].
    + apply Z.ltb_ge in E.
      assert (Ha : fst a < fst x) by (assert (fst a <> fst x) by (intros H; apply Hn; left; exact H); lia).
      inversion Hs as [|? ? Hl Hhd]; subst.
      constructor; [apply IH; [exact Hl|intros H; apply Hn; right; exact H]|].
      destruct l as [|b l]; simpl; [constructor; exact Ha|].
      inversion Hhd; subst.
      destruct (fst x <? fst b); constructor; assumption.
Qed.

(** What [index_entries] collects from the [(key, count)] pairs. *)
Lemma index_fold_spec (cs : list (jstr * Z)) (acc : list (Z * Z)) :
  NoDup (map fst cs) -> Sorted fst_lt acc ->
  (forall k i, In k (map fst cs) -> index_of_key k = Some i -> ~ In i (map fst acc)) ->
  Sorted fst_lt (fold_left index_step cs acc) /\
  (forall i c, In (i, c) (fold_left index_step cs acc) <->
               In (i, c) acc \/ exists k, In (k, c) cs /\ index_of_key k = Some i).
Proof.
  revert acc. induction cs as [|[k c] r IH]; intros acc Hnd Hs Hfresh.
  - simpl. split; [exact Hs|]. intros i c. split; [auto|intros [H|(k & [] & _)]; exact H].
  - simpl in Hnd. inversion Hnd as [|? ? Hk Hndr]; subst. simpl.
    destruct (index_of_key k) as [i0|] eqn:Ei.
    + assert (Hi0 : ~ In i0 (map fst acc)) by (apply (Hfresh k); [left; reflexivity|exact Ei]).
      destruct (IH (insert_idx (i0, c) acc) Hndr) as [IH1 IH2].
      * apply insert_idx_sorted; assumption.
      * intros k' i Hk' Ei' Hin. apply in_map_iff in Hin as [[i1 c1] [Ei1 Hin]]. simpl in Ei1. subst i1.
        apply insert_idx_In in Hin as [Hin|Hin].
        -- injection Hin as -> ->. apply Hk. rewrite (index_of_key_inj k' k i0 Ei' Ei) in Hk'. exact Hk'.
        -- apply (Hfresh k' i); [right; exact Hk'|exact Ei'|apply in_map_iff; exists (i, c1); auto].
      * split; [exact IH1|]. intros i c'. rewrite IH2, insert_idx_In. split.
        -- intros [[H|H]|(k' & Hk' & Ek')].
           ++ injection H as -> ->. right. exists k. split; [left; reflexivity|exact Ei].
           ++ left. exact H.
           ++ right. exists k'. split; [right; exact Hk'|exact Ek'].
        -- intros [H|(k' & [H|Hk'] & Ek')].
           ++ left. right. exact H.
           ++ injection H as -> ->. left. left. congruence.
           ++ right. exists k'. auto.
    + destruct (IH acc Hndr Hs) as [IH1 IH2].
      * intros k' i Hk'. apply Hfresh. right. exact Hk'.
      * split; [exact IH1|]. intros i c'. rewrite IH2. split.
        -- intros [H|(k' & Hk' & Ek')]; [left; exact H|right; exists k'; split; [right|]; assumption].
        -- intros [H|(k' & [H|Hk'] & Ek')].
           ++ left. exact H.
           ++ injection H as -> ->. congruence.
           ++ right. exists k'. auto.
Qed.

Lemma sorted_filter_fst (P : Z * Z -> bool) (l : list (Z * Z)) :
  Sorted fst_lt l -> Sorted Z.lt (map fst (filter P l)).
Proof.
  intros H. apply StronglySorted_Sorted.
  apply Sorted_StronglySorted in H; [|intros a b c; unfold fst_lt; lia].
  induction H as [|a l Hl IH Hall]; simpl; [constructor|].
  destruct (P a); simpl; [|exact IH].
  constructor; [exact IH|]. apply Forall_forall. intros y Hy.
  apply in_map_iff in Hy as [b [<- Hb]]. apply filter_In in Hb as [Hb _].
  rewrite Forall_forall in Hall. exact (Hall b Hb).
Qed.

(** C8 (amended).  [modes(arr)] is, through NumericFix and in strictly
    ascending order, exactly the integers [i] such that some element [x]
    of [arr] has [ToString(x)] equal to the array-index key of [i] (a
    canonical numeral of an integer in [[0, 2^32 - 2]]) and occurs, counted
    by its [ToString] key, at least as often as every element of [arr].
    Values that are not array indices (negative, fractional, too large)
    take part in the maximum count but are never returned. *)
Theorem modes_index_values (arr : list num) :
  exists L : list Z,
    modes arr = map (fun i => Scaled.ffix (of_Z i)) L /\
    Sorted Z.lt L /\
    forall i, In i L <->
      exists x, In x arr /\ index_of_key (to_string x) = Some i /\
        forall y, In y arr -> count_key (to_string y) arr <= count_key (to_string x) arr.
Proof.
  rewrite modes_fold. pose proof (modes_fold_inv arr) as Hinv.
  destruct (fold_left modes_step arr ([], 0)) as [cs mx].
  destruct Hinv as (Hnd & Hcnt & Hkeys & Hle & Hex).
  destruct (index_fold_spec cs [] Hnd (Sorted_nil _) ltac:(intros ? ? ? ? [])) as [Hs Hin].
  exists (map fst (filter (fun '(_, count) => count =? mx) (fold_left index_step cs []))).
  split; [rewrite map_map; apply map_ext; intros [a b]; reflexivity|].
  split; [apply sorted_filter_fst; exact Hs|].
  intros i. rewrite in_map_iff. split.
  - intros [[i' c] [Ei H]]. simpl in Ei. subst i'.
    apply filter_In in H as [H Hc]. apply Z.eqb_eq in Hc. subst c.
    apply Hin in H as [[]|(k & Hk & Ek)].
    assert (Hkk : In k (map fst cs)) by (apply in_map_iff; exists (k, mx); auto).
    apply Hkeys in Hkk as (x & Hx & <-).
    exists x. split; [exact Hx|]. split; [exact Ek|].
    intros y Hy. rewrite <- (Hcnt _ _ Hk).
    assert (Hyk : In (to_string y) (map fst cs)) by (apply Hkeys; exists y; auto).
    apply in_map_iff in Hyk as [[ky cy] [Eky Hky]]. simpl in Eky. subst ky.
    rewrite <- (Hcnt _ _ Hky). exact (Hle _ _ Hky).
  - intros (x & Hx & Ex & Hmax).
    assert (Hxk : In (to_string x) (map fst cs)) by (apply Hkeys; exists x; auto).
    apply in_map_iff in Hxk as [[kx cx] [Ekx Hkx]]. simpl in Ekx. subst kx.
    assert (Hcx : cx = mx).
    { apply Z.le_antisymm; [exact (Hle _ _ Hkx)|].
      destruct Hex as [[-> _]|[k Hk]]; [destruct Hkx|].
      assert (Hkk : In k (map fst cs)) by (apply in_map_iff; exists (k, mx); auto).
      apply Hkeys in Hkk as (y & Hy & <-).
      rewrite (Hcnt _ _ Hk), (Hcnt _ _ Hkx). exact (Hmax y Hy). }
    subst cx. exists (i, mx). split; [reflexivity|]. apply filter_In.
    split; [apply Hin; right; exists (to_string x); auto|apply Z.eqb_refl].
Qed.

End Facts.

(** * Further properties of the code *)

Module Coverage.

Import Props.
Import Facts.

Lemma ffix_nonfinite (x : num) : nonfinite x = true -> Scaled.ffix x = x.
Proof. destruct x; try discriminate; intros _; vm_compute; reflexivity. Qed.

Lemma js_add_nonfinite (x y : num) : nonfinite x = true -> nonfinite (js_add x y) = true.
Proof. destruct x, y; try discriminate; reflexivity. Qed.

Lemma js_div_zero_nonfinite (y : num) : nonfinite (js_div y (Fin 0)) = true.
Proof.
  destruct y as [a| | |]; try reflexivity. unfold js_div.
  change (Qeq_bool 0 0) with true. cbv iota.
  destruct (Qeq_bool a 0); [reflexivity|]. unfold sgn_inf. destruct (Qlt_bool 0 a); reflexivity.
Qed.

Lemma self_sub_width (a : num) : Scaled.ffix (js_sub a a) = Fin 0 \/ Scaled.ffix (js_sub a a) = NaN.
Proof.
  destruct a as [[n d]| | |]; try (right; reflexivity).
  left. unfold js_sub, js_neg, js_add.
  assert (E : round_double ((n # d) + - (n # d))%Q = Fin 0).
  { unfold round_double. simpl. replace (n * Z.pos d + - n * Z.pos d) with 0 by lia. reflexivity. }
  rewrite E. reflexivity.
Qed.

Lemma scale_zero_width_nonfinite (value a : num) (r2 : num * num) :
  nonfinite (Scaled.scale value (a, a) r2) = true.
Proof.
  unfold Scaled.scale. cbn [fst snd].
  set (y := Scaled.ffix (js_mul (Scaled.ffix (js_sub value a)) (Scaled.ffix (js_sub (snd r2) (fst r2))))).
  assert (Hz : nonfinite (Scaled.ffix (js_div y (Scaled.ffix (js_sub a a)))) = true).
  { destruct (self_sub_width a) as [-> | ->].
    - rewrite ffix_nonfinite; apply js_div_zero_nonfinite.
    - destruct y; reflexivity. }
  rewrite ffix_nonfinite; apply js_add_nonfinite; exact Hz.
Qed.

(** Extra: [Scaled.scale] from an initial range of width zero ([min = max]) never returns a finite number: the division by the zero width gives [NaN] or an infinity, which the later steps keep. *)
Theorem scale_from_empty_range (value a : num) (r2 : num * num) :
  let r := Scaled.scale value (a, a) r2 in r = NaN \/ r = PInf \/ r = NInf.
Proof.
  pose proof (scale_zero_width_nonfinite value a r2) as H. cbv zeta.
  destruct (Scaled.scale value (a, a) r2); try discriminate; auto.
Qed.

Lemma nonfinite_cases (r : num) : nonfinite r = true -> r = NaN \/ r = PInf \/ r = NInf.
Proof. destruct r; try discriminate; auto. Qed.

(** Extra: [Elemstats.stdDev] on a non-empty array whose largest element is [0] completes without throwing and returns [NaN] or an infinity, because it scales from the empty range [[0, 0]]. *)
Theorem stdDev_zero_max (math : MathLib) (arr : list num) :
  arr <> [] -> Elemstats.max_of arr = Fin 0 ->
  exists r, Elemstats.stdDev math arr = Elemstats.Ok r /\ (r = NaN \/ r = PInf \/ r = NInf).
Proof.
  intros Hne Hmax. destruct arr as [|x r]; [congruence|].
  unfold Elemstats.stdDev, Elemstats.mean. cbn [Elemstats.reduce_sum map]. rewrite Hmax.
  eexists; split; [reflexivity|]. apply nonfinite_cases, scale_zero_width_nonfinite.
Qed.

Lemma stdDev_zero_max_witness :
  [of_Z (-1); Fin 0] <> [] /\ Elemstats.max_of [of_Z (-1); Fin 0] = Fin 0 /\
  exists r, Elemstats.stdDev sample_math [of_Z (-1); Fin 0] = Elemstats.Ok r /\ (r = NaN \/ r = PInf \/ r = NInf).
Proof.
  assert (H1 : [of_Z (-1); Fin 0] <> []) by discriminate.
  assert (H2 : Elemstats.max_of [of_Z (-1); Fin 0] = Fin 0) by (vm_compute; reflexivity).
  split; [exact H1|]. split; [exact H2|]. exact (stdDev_zero_max sample_math _ H1 H2).
Defined.


Lemma evict_int (k : nat) (m : Z) (l : list (list num)) :
  Z.abs m <= 2 ^ 53 -> Z.of_nat (List.length l) <= 2 ^ 53 ->
  History.evict k (of_Z m) l = skipn (Nat.min k (List.length l - Z.to_nat (m - 1))) l.
Proof.
  intros Hm. revert l. induction k as [|k IH]; intros l Hl; [reflexivity|].
  cbn [History.evict].
  assert (C : js_ge (History.len l) (of_Z m) = (m <=? Z.of_nat (List.length l))).
  { unfold History.len. rewrite (of_Z_exact (Z.of_nat (List.length l))) by lia.
    rewrite (of_Z_exact m Hm). apply js_ge_Z. }
  rewrite C. destruct (m <=? Z.of_nat (List.length l)) eqn:E.
  - apply Z.leb_le in E. destruct l as [|x l].
    + rewrite IH by (simpl; lia). rewrite !skipn_nil. reflexivity.
    + cbn [tl]. rewrite IH by (simpl in Hl; lia). cbn [List.length] in *.
      replace (Nat.min (S k) (S (List.length l) - Z.to_nat (m - 1)))
        with (S (Nat.min k (List.length l - Z.to_nat (m - 1)))) by lia.
      reflexivity.
  - apply Z.leb_gt in E. rewrite IH by exact Hl.
    replace (List.length l - Z.to_nat (m - 1))%nat with 0%nat by lia.
    rewrite !Nat.min_0_r. reflexivity.
Qed.

Lemma evict_inf (k : nat) (l : list (list num)) :
  Z.of_nat (List.length l) <= 2 ^ 53 -> History.evict k PInf l = l.
Proof.
  intros Hl. revert l Hl. induction k as [|k IH]; intros l Hl; [reflexivity|].
  cbn [History.evict]. unfold History.len.
  rewrite (of_Z_exact (Z.of_nat (List.length l))) by lia. apply IH, Hl.
Qed.

(** Extra: [History.push] with a finite integral maximum [m]: it drops the [min(|items|, len - (m - 1))] oldest entries, appends the new entry at the end and keeps the maximum. *)
Theorem history_push_evicts (h : History.t) (items : list num) (m : Z) :
  History.max h = of_Z m -> Z.abs m <= 2 ^ 53 ->
  Z.of_nat (List.length (History.entries h)) <= 2 ^ 53 ->
  History.entries (History.push items h) =
    skipn (Nat.min (List.length items) (List.length (History.entries h) - Z.to_nat (m - 1)))
          (History.entries h) ++ [items] /\
  History.max (History.push items h) = History.max h.
Proof.
  intros Hmax Hm Hl. unfold History.push. cbn [History.entries History.max].
  rewrite Hmax, evict_int by assumption. split; reflexivity.
Qed.

Lemma history_push_evicts_witness :
  let h := History.mk [[Fin 1]; [Fin 2]; [Fin 3]] (of_Z 2) in
  History.max h = of_Z 2 /\ Z.abs 2 <= 2 ^ 53 /\
  Z.of_nat (List.length (History.entries h)) <= 2 ^ 53 /\
  History.entries (History.push [Fin 4] h) =
    skipn (Nat.min 1 (3 - Z.to_nat (2 - 1))) (History.entries h) ++ [[Fin 4]] /\
  History.max (History.push [Fin 4] h) = History.max h.
Proof.
  cbv zeta. split; [reflexivity|]. split; [lia|]. split; [simpl; lia|].
  apply (history_push_evicts (History.mk [[Fin 1]; [Fin 2]; [Fin 3]] (of_Z 2)) [Fin 4] 2);
    [reflexivity | lia | simpl; lia].
Defined.

(** Extra: [History.push] with the default maximum [Infinity] never evicts: the new entry is appended after all existing ones. *)
Theorem history_push_unbounded (h : History.t) (items : list num) :
  History.max h = PInf -> Z.of_nat (List.length (History.entries h)) <= 2 ^ 53 ->
  History.entries (History.push items h) = History.entries h ++ [items].
Proof.
  intros H Hl. unfold History.push. cbn [History.entries]. rewrite H, evict_inf by exact Hl.
  reflexivity.
Qed.

Lemma history_push_unbounded_witness :
  History.max (History.create None) = PInf /\
  Z.of_nat (List.length (History.entries (History.create None))) <= 2 ^ 53 /\
  History.entries (History.push [Fin 1] (History.create None)) =
    History.entries (History.create None) ++ [[Fin 1]].
Proof.
  split; [reflexivity|]. split; [simpl; lia|].
  apply history_push_unbounded; [reflexivity | simpl; lia].
Defined.

Lemma fold_add_nan (r : list num) :
  fold_left (fun previous current => js_add current previous) r NaN = NaN.
Proof. induction r as [|y r IH]; [reflexivity|]. cbn [fold_left]. destruct y; exact IH. Qed.

Lemma fold_add_has_nan (r : list num) (acc : num) :
  In NaN r -> fold_left (fun previous current => js_add current previous) r acc = NaN.
Proof.
  revert acc. induction r as [|y r IH]; intros acc H; [destruct H|].
  cbn [fold_left]. destruct H as [->|H].
  - replace (js_add NaN acc) with NaN by (destruct acc; reflexivity). apply fold_add_nan.
  - apply IH, H.
Qed.

(** Extra: [Elemstats.mean] on an array that contains [NaN] completes without throwing and returns [NaN]. *)
Theorem mean_propagates_nan (arr : list num) :
  In NaN arr -> Elemstats.mean arr = Elemstats.Ok NaN.
Proof.
  intros H. destruct arr as [|x r]; [destruct H|]. unfold Elemstats.mean, Elemstats.reduce_sum.
  assert (S : fold_left (fun previous current => js_add current previous) r x = NaN).
  { destruct H as [->|H]; [apply fold_add_nan|apply fold_add_has_nan, H]. }
  rewrite S. reflexivity.
Qed.

Lemma mean_propagates_nan_witness :
  In NaN [of_Z 1; NaN; of_Z 3] /\ Elemstats.mean [of_Z 1; NaN; of_Z 3] = Elemstats.Ok NaN.
Proof.
  assert (H : In NaN [of_Z 1; NaN; of_Z 3]) by (right; left; reflexivity).
  split; [exact H|]. exact (mean_propagates_nan [of_Z 1; NaN; of_Z 3] H).
Defined.

Lemma round_nonfinite (v places : num) : nonfinite v = true -> Scaled.round v places = NaN.
Proof.
  destruct v; try discriminate; intros _; unfold Scaled.round; reflexivity.
Qed.

Lemma js_mul_nonfinite (x y : num) : nonfinite y = true -> nonfinite (js_mul x y) = true.
Proof.
  destruct x as [a| | |], y; try discriminate; intros _; cbn [js_mul];
    try reflexivity; destruct (Qeq_bool a 0); try reflexivity;
    unfold sgn_inf; destruct (Qlt_bool _ _); reflexivity.
Qed.

Lemma js_div_nonfinite (x y : num) : nonfinite x = true -> nonfinite (js_div x y) = true.
Proof.
  destruct x, y; try discriminate; intros _; cbn [js_div]; try reflexivity;
    unfold sgn_inf; destruct (Qle_bool _ _) || destruct (Qlt_bool _ _); reflexivity.
Qed.

Lemma scale_nonfinite_target (v : num) (r1 r2 : num * num) :
  nonfinite (snd r2) = true -> nonfinite (Scaled.scale v r1 r2) = true.
Proof.
  intros H. unfold Scaled.scale.
  assert (A : nonfinite (Scaled.ffix (js_sub (snd r2) (fst r2))) = true).
  { rewrite ffix_nonfinite; unfold js_sub; apply js_add_nonfinite; exact H. }
  set (z := Scaled.ffix (js_sub (snd r2) (fst r2))) in *.
  assert (B : nonfinite (Scaled.ffix (js_mul (Scaled.ffix (js_sub v (fst r1))) z)) = true).
  { rewrite ffix_nonfinite; apply js_mul_nonfinite; exact A. }
  assert (C : nonfinite (Scaled.ffix (js_div (Scaled.ffix (js_mul (Scaled.ffix (js_sub v (fst r1))) z))
                                        (Scaled.ffix (js_sub (snd r1) (fst r1))))) = true).
  { rewrite ffix_nonfinite; apply js_div_nonfinite; exact B. }
  rewrite ffix_nonfinite; apply js_add_nonfinite; exact C.
Qed.

Lemma math_floor_nonfinite (x : num) : nonfinite x = true -> nonfinite (math_floor x) = true.
Proof. destruct x; try discriminate; reflexivity. Qed.

(** Extra: [d(sides)] with [sides] equal to [NaN], [Infinity] or [-Infinity] returns [NaN] and pushes [NaN] to the history, whatever the draw. *)
Theorem d_nonfinite_sides (math : MathLib) (floor : bool) (fuel : nat) (ent : entropy)
    (m : Roll.t) (sides : num) (skew : option num) (r : num) (m' : Roll.t) (ent' : entropy) :
  nonfinite sides = true ->
  Roll.d_private math floor fuel ent m sides skew = Some (r, m', ent') ->
  r = NaN /\ Roll.hist m' = History.push [NaN] (Roll.hist m).
Proof.
  intros H E. unfold Roll.d_private in E.
  destruct (match skew with Some s => _ | None => _ end) as [[[x u] e2]|]; [|discriminate E].
  assert (T : nonfinite (if floor then math_floor sides else sides) = true)
    by (destruct floor; [apply math_floor_nonfinite|]; exact H).
  assert (V : Scaled.value (Scaled.round_to (Scaled.scale_to (Scaled.create x) (of_Z 1)
                (if floor then math_floor sides else sides)) (Fin 0)) = NaN).
  { cbn [Scaled.round_to Scaled.scale_to Scaled.create Scaled.value Scaled.range].
    apply round_nonfinite, scale_nonfinite_target, T. }
  generalize dependent (Scaled.value (Scaled.round_to (Scaled.scale_to (Scaled.create x) (of_Z 1)
                (if floor then math_floor sides else sides)) (Fin 0))).
  intros n E ->. injection E as <- <- _. split; reflexivity.
Qed.

Lemma d_private_uniform_some (math : MathLib) (floor : bool) (fuel : nat) (ent : entropy)
    (m : Roll.t) (sides : num) :
  exists r m', Roll.d_private math floor fuel ent m sides None = Some (r, m', ent).
Proof.
  unfold Roll.d_private. destruct (Uniform.random (Roll.uni m)) as [x u].
  eexists; eexists; reflexivity.
Qed.

Lemma d_nonfinite_sides_witness :
  exists r m', nonfinite PInf = true /\
    Roll.d_private sample_math false 10 (Streams.const []) m5489 PInf None
      = Some (r, m', Streams.const []) /\
    r = NaN /\ Roll.hist m' = History.push [NaN] (Roll.hist m5489).
Proof.
  destruct (d_private_uniform_some sample_math false 10 (Streams.const []) m5489 PInf) as [r [m' E]].
  exists r, m'. split; [reflexivity|]. split; [exact E|].
  exact (d_nonfinite_sides sample_math false 10 (Streams.const []) m5489 PInf None r m'
           (Streams.const []) eq_refl E).
Defined.

(** Extra: [Scaled.clip] returns [NaN] when the value or either bound of the range is [NaN]. *)
Theorem clip_propagates_nan (value : num) (range : num * num) :
  is_nan value || is_nan (fst range) || is_nan (snd range) = true ->
  Scaled.clip value range = NaN.
Proof.
  destruct range as [lo hi]; cbn [fst snd]. intros H. unfold Scaled.clip, math_max, math_min.
  cbn [fst snd].
  destruct (is_nan value) eqn:V; cbn [orb] in H |- *.
  - rewrite orb_true_r. reflexivity.
  - destruct (is_nan lo) eqn:L; cbn [orb] in H |- *.
    + reflexivity.
    + rewrite H, orb_true_r. reflexivity.
Qed.

Lemma clip_propagates_nan_witness :
  is_nan (of_Z 3) || is_nan (fst (of_Z 0, NaN)) || is_nan (snd (of_Z 0, NaN)) = true /\
  Scaled.clip (of_Z 3) (of_Z 0, NaN) = NaN.
Proof.
  assert (H : is_nan (of_Z 3) || is_nan (fst (of_Z 0, NaN)) || is_nan (snd (of_Z 0, NaN)) = true)
    by reflexivity.
  split; [exact H|]. exact (clip_propagates_nan (of_Z 3) (of_Z 0, NaN) H).
Defined.

(** Extra: [Scaled.round] maps [NaN], [Infinity] and [-Infinity] to [NaN] for every [places]: the string [Infinitye0] that it builds is not a number. *)
Theorem round_nonfinite_is_nan (value places : num) :
  nonfinite value = true -> Scaled.round value places = NaN.
Proof.
  destruct value; try discriminate; intros _; unfold Scaled.round; reflexivity.
Qed.

Lemma round_nonfinite_is_nan_witness :
  nonfinite NInf = true /\ Scaled.round NInf (of_Z 2) = NaN.
Proof.
  assert (H : nonfinite NInf = true) by reflexivity.
  split; [exact H|]. exact (round_nonfinite_is_nan NInf (of_Z 2) H).
Defined.



Lemma in32_ones (x : Z) : in32 x <-> Z.land x (Z.ones 32) = x.
Proof.
  unfold in32. rewrite Z.land_ones by lia. split; intros H.
  - apply Z.mod_small; lia.
  - rewrite <- H. apply Z.mod_pos_bound. lia.
Qed.

Lemma in32_lxor (a b : Z) : in32 a -> in32 b -> in32 (Z.lxor a b).
Proof.
  rewrite !in32_ones. intros Ha Hb.
  assert (Ea : forall n, Z.testbit a n = Z.testbit a n && Z.testbit (Z.ones 32) n)
    by (intros n; rewrite <- Z.land_spec, Ha; reflexivity).
  assert (Eb : forall n, Z.testbit b n = Z.testbit b n && Z.testbit (Z.ones 32) n)
    by (intros n; rewrite <- Z.land_spec, Hb; reflexivity).
  apply Z.bits_inj'; intros n _. rewrite Z.land_spec, !Z.lxor_spec, (Ea n), (Eb n).
  destruct (Z.testbit a n), (Z.testbit b n), (Z.testbit (Z.ones 32) n); reflexivity.
Qed.

Lemma in32_lor (a b : Z) : in32 a -> in32 b -> in32 (Z.lor a b).
Proof. rewrite !in32_ones. intros Ha Hb. rewrite Z.land_lor_distr_l, Ha, Hb. reflexivity. Qed.

Lemma in32_land (a c : Z) : in32 a -> in32 (Z.land a c).
Proof.
  rewrite !in32_ones. intros Ha.
  rewrite <- Z.land_assoc, (Z.land_comm c), Z.land_assoc, Ha. reflexivity.
Qed.

Lemma in32_shiftr1 (y : Z) : in32 y -> in32 (Z.shiftr y 1).
Proof.
  unfold in32. intros H. rewrite Z.shiftr_div_pow2 by lia. split.
  - apply Z.div_pos; lia.
  - apply Z.div_lt_upper_bound; lia.
Qed.

Lemma in32_mod (z : Z) : in32 (z mod 2 ^ 32).
Proof. apply Z.mod_pos_bound. lia. Qed.

Lemma in32_to_uint32 (x : num) : in32 (to_uint32 x).
Proof. destruct x; cbn [to_uint32]; [apply in32_mod|..]; unfold in32; lia. Qed.

Lemma in32_mag01 (b : Z) : in32 (Uniform.mag01 b).
Proof. unfold Uniform.mag01, in32, Uniform.MA. destruct (b =? 0); lia. Qed.

Lemma Forall_firstn' {A} (P : A -> Prop) (n : nat) (l : list A) :
  Forall P l -> Forall P (firstn n l).
Proof.
  revert l; induction n as [|n IH]; intros l H; [constructor|].
  destruct l; [constructor|]. inversion H; subst. constructor; auto.
Qed.

Lemma Forall_skipn' {A} (P : A -> Prop) (n : nat) (l : list A) :
  Forall P l -> Forall P (skipn n l).
Proof.
  revert l; induction n as [|n IH]; intros l H; [exact H|].
  destruct l; [constructor|]. inversion H; subst. simpl. auto.
Qed.

Lemma set_length (mt : list Z) (i v : Z) :
  (Z.to_nat i < List.length mt)%nat -> List.length (Uniform.set mt i v) = List.length mt.
Proof.
  intros H. unfold Uniform.set. rewrite length_app, length_firstn. cbn [List.length].
  rewrite length_skipn. lia.
Qed.

Lemma set_wfl (mt : list Z) (i v : Z) :
  wfl mt -> 0 <= i < 624 -> in32 v -> wfl (Uniform.set mt i v).
Proof.
  intros [Hl Hf] Hi Hv. split.
  - rewrite set_length; lia.
  - unfold Uniform.set. apply Forall_app. split; [apply Forall_firstn'; exact Hf|].
    constructor; [exact Hv|]. apply Forall_skipn'; exact Hf.
Qed.

Lemma get_in32 (mt : list Z) (i : Z) : Forall in32 mt -> in32 (Uniform.get mt i).
Proof.
  intros H. unfold Uniform.get.
  destruct (nth_in_or_default (Z.to_nat i) mt 0) as [Hin|Hd].
  - rewrite Forall_forall in H. apply H, Hin.
  - rewrite Hd. unfold in32; lia.
Qed.

Lemma withInt_loop_wfl (f : nat) (i : Z) (mt : list Z) :
  wfl mt -> 1 <= i -> i + Z.of_nat f <= 624 -> wfl (Uniform.withInt_loop f i mt).
Proof.
  revert i mt. induction f as [|f IH]; intros i mt H Hi Hf; [exact H|].
  cbn [Uniform.withInt_loop]. apply IH; [|lia|lia].
  apply set_wfl; [exact H|lia|apply in32_mod].
Qed.

Lemma withInt_wfl (x : num) (st : Uniform.state) :
  wfl (Uniform.mt st) -> wfl (Uniform.mt (Uniform.withInt x st)).
Proof.
  intros H. unfold Uniform.withInt. cbn [Uniform.mt].
  apply withInt_loop_wfl; [|lia|unfold Uniform.N; lia].
  apply set_wfl; [exact H|lia|apply in32_to_uint32].
Qed.

Lemma wrap_i_wfl (mt : list Z) (i : Z) :
  wfl mt -> 2 <= i <= 624 ->
  wfl (fst (Uniform.wrap_i mt i)) /\ 1 <= snd (Uniform.wrap_i mt i) < 624.
Proof.
  intros H Hi. unfold Uniform.wrap_i. destruct (i >=? Uniform.N) eqn:E; cbn [fst snd].
  - split; [|lia]. apply set_wfl; [exact H|lia|apply get_in32, H].
  - rewrite Z.geb_leb in E. apply Z.leb_gt in E. unfold Uniform.N in E. split; [exact H|lia].
Qed.

Lemma withArray_loop1_wfl (f : nat) (v : list num) (i j : Z) (mt : list Z) :
  wfl mt -> 1 <= i < 624 ->
  wfl (fst (Uniform.withArray_loop1 f v i j mt)) /\
  1 <= snd (Uniform.withArray_loop1 f v i j mt) < 624.
Proof.
  revert i j mt. induction f as [|f IH]; intros i j mt H Hi; [split; [exact H|exact Hi]|].
  cbn [Uniform.withArray_loop1].
  set (mt1 := Uniform.set mt i _).
  assert (H1 : wfl mt1) by (apply set_wfl; [exact H|lia|apply in32_to_uint32]).
  destruct (wrap_i_wfl mt1 (i + 1) H1 ltac:(lia)) as [H2 H3].
  destruct (Uniform.wrap_i mt1 (i + 1)) as [mt2 i2]. cbn [fst snd] in *.
  apply IH; assumption.
Qed.

Lemma withArray_loop2_wfl (f : nat) (i : Z) (mt : list Z) :
  wfl mt -> 1 <= i < 624 -> wfl (Uniform.withArray_loop2 f i mt).
Proof.
  revert i mt. induction f as [|f IH]; intros i mt H Hi; [exact H|].
  cbn [Uniform.withArray_loop2].
  set (mt1 := Uniform.set mt i _).
  assert (H1 : wfl mt1) by (apply set_wfl; [exact H|lia|apply in32_mod]).
  destruct (wrap_i_wfl mt1 (i + 1) H1 ltac:(lia)) as [H2 H3].
  destruct (Uniform.wrap_i mt1 (i + 1)) as [mt2 i2]. cbn [fst snd] in *.
  apply IH; assumption.
Qed.

Lemma withArray_wfl (v : list num) (st : Uniform.state) :
  wfl (Uniform.mt st) -> wfl (Uniform.mt (Uniform.withArray v st)).
Proof.
  intros H. unfold Uniform.withArray.
  pose proof (withInt_wfl (nth 0 v NaN) st H) as H1.
  destruct (withArray_loop1_wfl (Z.to_nat (Z.max Uniform.N (Z.of_nat (List.length v)))) v 1 0
              (Uniform.mt (Uniform.withInt (nth 0 v NaN) st)) H1 ltac:(lia)) as [H2 H3].
  destruct (Uniform.withArray_loop1 _ v 1 0 _) as [mt1 i]. cbn [fst snd] in *.
  cbn [Uniform.mt]. pose proof (withArray_loop2_wfl (Z.to_nat (Uniform.N - 1)) i mt1 H2 H3) as H4.
  destruct ((List.length (Uniform.withArray_loop2 (Z.to_nat (Uniform.N - 1)) i mt1) <? 1)%nat).
  - apply set_wfl; [exact H4|lia|]. unfold in32, Uniform.UM; lia.
  - exact H4.
Qed.

Lemma withCrypto_wfl (e : list Z) (st : Uniform.state) :
  wfl (Uniform.mt st) -> wfl (Uniform.mt (Uniform.withCrypto e st)).
Proof. intros H. unfold Uniform.withCrypto. apply withArray_wfl. exact H. Qed.

Lemma init_array_wfl (e : list Z) (ss : list num) (st : Uniform.state) :
  wfl (Uniform.mt st) -> wfl (Uniform.mt (Uniform.init_array e ss st)).
Proof.
  intros H. unfold Uniform.init_array. destruct ss as [|x ss]; [apply withCrypto_wfl, H|].
  destruct (existsb _ _); [apply withCrypto_wfl, H|apply withArray_wfl, H].
Qed.

Lemma init_wfl (e : list Z) (s : seed) (st : Uniform.state) :
  wfl (Uniform.mt st) -> wfl (Uniform.mt (Uniform.init e s st)).
Proof.
  intros H. destruct s as [x|xs|xs| | |]; cbn delta [Uniform.init] iota beta zeta.
  - destruct (js_ge (Uniform.ensureUint x) (Fin 0)); [apply withInt_wfl, H|apply withCrypto_wfl, H].
  - destruct (forallb _ _); [apply init_array_wfl, H|apply withCrypto_wfl, H].
  - apply init_array_wfl, H.
  - apply withCrypto_wfl, H.
  - apply withCrypto_wfl, H.
  - apply withCrypto_wfl, H.
Qed.

Lemma twist_loop_wfl (f : nat) (off kk : Z) (mt : list Z) :
  wfl mt -> 0 <= kk -> kk + Z.of_nat f <= 624 -> wfl (Uniform.twist_loop f off kk mt).
Proof.
  revert kk mt. induction f as [|f IH]; intros kk mt H Hk Hf; [exact H|].
  cbn [Uniform.twist_loop]. apply IH; [|lia|lia].
  unfold Uniform.twist_step. apply set_wfl; [exact H|lia|].
  apply in32_lxor; [apply in32_lxor|apply in32_mag01].
  - apply get_in32, H.
  - apply in32_shiftr1, in32_lor; apply in32_land, get_in32, H.
Qed.

Lemma twist_wfl (mt : list Z) : wfl mt -> wfl (Uniform.twist mt).
Proof.
  intros H. unfold Uniform.twist.
  assert (H1 := twist_loop_wfl (Z.to_nat (Uniform.N - Uniform.M)) Uniform.M 0 mt H
                  ltac:(unfold Uniform.N, Uniform.M; lia) ltac:(unfold Uniform.N, Uniform.M; lia)).
  assert (H2 := twist_loop_wfl (Z.to_nat (Uniform.M - 1)) (Uniform.M - Uniform.N)
                  (Uniform.N - Uniform.M) _ H1 ltac:(unfold Uniform.N, Uniform.M; lia)
                  ltac:(unfold Uniform.N, Uniform.M; lia)).
  apply set_wfl; [exact H2|unfold Uniform.N; lia|].
  apply in32_lxor; [apply in32_lxor|apply in32_mag01].
  - apply get_in32, H2.
  - apply in32_shiftr1, in32_lor; apply in32_land, get_in32, H2.
Qed.

Lemma random_wfl (st : Uniform.state) :
  wfl (Uniform.mt st) -> wfl (Uniform.mt (snd (Uniform.random st))).
Proof.
  intros H. unfold Uniform.random, Uniform.int32.
  destruct (Uniform.mti st); cbn [snd Uniform.mt]; [apply twist_wfl|]; exact H.
Qed.

Lemma wfl_well_formed (st : Uniform.state) : wfl (Uniform.mt st) <-> well_formed st = true.
Proof.
  unfold well_formed, wfl. rewrite andb_true_iff, Nat.eqb_eq, forallb_forall, Forall_forall.
  unfold in32. split; intros [H1 H2]; split; auto; intros x Hx; specialize (H2 x Hx).
  - apply andb_true_iff; split; [apply Z.leb_le|apply Z.ltb_lt]; lia.
  - apply andb_true_iff in H2 as [A B]. apply Z.leb_le in A. apply Z.ltb_lt in B. lia.
Qed.

Lemma fresh_wfl (s : seed) : wfl (Uniform.mt (Uniform.fresh s)).
Proof. apply wfl_well_formed. vm_compute. reflexivity. Qed.

Lemma urun_wfl (st : Uniform.state) (ops : list uop) :
  wfl (Uniform.mt st) -> wfl (Uniform.mt (urun st ops)).
Proof.
  revert st. induction ops as [|[|e s] os IH]; intros st H; [exact H| |]; cbn [urun]; apply IH.
  - apply random_wfl, H.
  - destruct s; cbn [Uniform.reseed]; try exact H; apply init_wfl, H.
Qed.

Lemma firstn_set (mt : list Z) (i v : Z) :
  (Z.to_nat i < List.length mt)%nat ->
  firstn (S (Z.to_nat i)) (Uniform.set mt i v) = firstn (Z.to_nat i) mt ++ [v].
Proof.
  intros H. unfold Uniform.set. rewrite firstn_app, firstn_firstn, length_firstn.
  replace (Nat.min (S (Z.to_nat i)) (Z.to_nat i)) with (Z.to_nat i) by lia.
  replace (S (Z.to_nat i) - Nat.min (Z.to_nat i) (List.length mt))%nat with 1%nat by lia.
  reflexivity.
Qed.

Lemma nth_prefix (n k : nat) (l l' : list Z) (d : Z) :
  (k < n)%nat -> firstn n l = firstn n l' -> nth k l d = nth k l' d.
Proof.
  revert k l l'. induction n as [|n IH]; intros k l l' Hk E; [lia|].
  destruct l as [|x l], l' as [|x' l']; try discriminate E; [reflexivity|].
  cbn [firstn] in E. injection E as -> E. destruct k as [|k]; [reflexivity|].
  cbn [nth]. apply IH; [lia|exact E].
Qed.

Lemma withInt_loop_indep (f : nat) (i : Z) (mt mt' : list Z) :
  1 <= i -> List.length mt = List.length mt' -> (Z.to_nat i + f)%nat = List.length mt ->
  firstn (Z.to_nat i) mt = firstn (Z.to_nat i) mt' ->
  Uniform.withInt_loop f i mt = Uniform.withInt_loop f i mt'.
Proof.
  revert i mt mt'. induction f as [|f IH]; intros i mt mt' Hi Hl Hf E.
  - cbn [Uniform.withInt_loop]. rewrite Nat.add_0_r in Hf.
    rewrite <- (firstn_all mt), <- (firstn_all mt'), <- Hl, <- Hf. exact E.
  - cbn [Uniform.withInt_loop].
    assert (G : Uniform.get mt (i - 1) = Uniform.get mt' (i - 1)).
    { unfold Uniform.get. apply (nth_prefix (Z.to_nat i)); [lia|exact E]. }
    rewrite G. apply IH; [lia| | |].
    + rewrite !set_length; lia.
    + rewrite set_length; lia.
    + replace (Z.to_nat (i + 1)) with (S (Z.to_nat i)) by lia.
      rewrite !firstn_set by lia. rewrite E. reflexivity.
Qed.

Lemma withInt_indep (x : num) (st st' : Uniform.state) :
  Uniform.st_seed st = Uniform.st_seed st' ->
  List.length (Uniform.mt st) = 624%nat -> List.length (Uniform.mt st') = 624%nat ->
  Uniform.withInt x st = Uniform.withInt x st'.
Proof.
  intros Hs H H'. unfold Uniform.withInt. rewrite Hs. f_equal.
  apply withInt_loop_indep; [lia| | |].
  - rewrite !set_length; lia.
  - rewrite set_length; unfold Uniform.N; lia.
  - change (Z.to_nat 1) with (S (Z.to_nat 0)). rewrite !firstn_set by lia. reflexivity.
Qed.

Lemma withArray_indep (v : list num) (st st' : Uniform.state) :
  Uniform.st_seed st = Uniform.st_seed st' ->
  List.length (Uniform.mt st) = 624%nat -> List.length (Uniform.mt st') = 624%nat ->
  Uniform.withArray v st = Uniform.withArray v st'.
Proof.
  intros Hs H H'. unfold Uniform.withArray. rewrite (withInt_indep _ st st' Hs H H'). reflexivity.
Qed.

Lemma withCrypto_indep (e : list Z) (st st' : Uniform.state) :
  List.length (Uniform.mt st) = 624%nat -> List.length (Uniform.mt st') = 624%nat ->
  Uniform.withCrypto e st = Uniform.withCrypto e st'.
Proof. intros H H'. unfold Uniform.withCrypto. apply withArray_indep; auto. Qed.

Lemma init_array_indep (e : list Z) (ss : list num) (st st' : Uniform.state) :
  List.length (Uniform.mt st) = 624%nat -> List.length (Uniform.mt st') = 624%nat ->
  Uniform.init_array e ss st = Uniform.init_array e ss st'.
Proof.
  intros H H'. unfold Uniform.init_array. destruct ss as [|x ss]; [apply withCrypto_indep; auto|].
  destruct (existsb _ _); [apply withCrypto_indep; auto|apply withArray_indep; auto].
Qed.

Lemma init_indep (e : list Z) (s : seed) (st st' : Uniform.state) :
  List.length (Uniform.mt st) = 624%nat -> List.length (Uniform.mt st') = 624%nat ->
  Uniform.init e s st = Uniform.init e s st'.
Proof.
  intros H H'. destruct s as [x|xs|xs| | |]; cbn delta [Uniform.init] iota beta zeta.
  - destruct (js_ge (Uniform.ensureUint x) (Fin 0));
      [apply withInt_indep; auto|apply withCrypto_indep; auto].
  - destruct (forallb _ _); [apply init_array_indep; auto|apply withCrypto_indep; auto].
  - apply init_array_indep; auto.
  - apply withCrypto_indep; auto.
  - apply withCrypto_indep; auto.
  - apply withCrypto_indep; auto.
Qed.

Lemma reseed_create (e : list Z) (s : seed) (st : Uniform.state) :
  resets s = true -> List.length (Uniform.mt st) = 624%nat ->
  Uniform.reseed e s st = Uniform.create e s.
Proof.
  intros Hs H. unfold Uniform.create.
  assert (E : Uniform.init e s st = Uniform.init e s (Uniform.fresh s))
    by (apply init_indep; [exact H|apply fresh_wfl]).
  destruct s; try discriminate Hs; exact E.
Qed.

(** Extra: [uniform.seed(s)] with [s] neither [undefined] nor [null] puts a generator, whatever its history of draws and seeds, in exactly the state of [new Uniform(s)]. *)
Theorem uniform_reseed_restarts (e0 : list Z) (s0 : seed) (ops : list uop) (e : list Z) (s : seed) :
  resets s = true ->
  Uniform.reseed e s (urun (Uniform.create e0 s0) ops) = Uniform.create e s.
Proof.
  intros Hs. apply reseed_create; [exact Hs|].
  apply urun_wfl, init_wfl, fresh_wfl.
Qed.

Lemma uniform_reseed_restarts_witness :
  resets (SeedNum (of_Z 7)) = true /\
  Uniform.reseed [] (SeedNum (of_Z 7)) (urun (Uniform.create [] (SeedNum (of_Z 5489))) [URandom; URandom])
  = Uniform.create [] (SeedNum (of_Z 7)).
Proof.
  split; [reflexivity|].
  exact (uniform_reseed_restarts [] (SeedNum (of_Z 5489)) [URandom; URandom] [] (SeedNum (of_Z 7))
           eq_refl).
Defined.

Lemma draw_nonzero_wfl (f : nat) (u : num) (g : Uniform.state) (x : num) (g' : Uniform.state) :
  Gaussian.draw_nonzero f u g = Some (x, g') -> wfl (Uniform.mt g) -> wfl (Uniform.mt g').
Proof.
  revert u g. induction f as [|f IH]; intros u g E H; cbn [Gaussian.draw_nonzero] in E;
    destruct (strict_eq u (Fin 0)); try discriminate E.
  - injection E as _ <-. exact H.
  - pose proof (random_wfl g H) as H1. destruct (Uniform.random g) as [y g1].
    exact (IH y g1 E H1).
  - injection E as _ <-. exact H.
Qed.

Lemma Gaussian_wfl (math : MathLib) (fuel : nat) (ent : entropy) (g : Uniform.state) (skew : num)
    (r : num) (g' : Uniform.state) (ent' : entropy) :
  Gaussian.Gaussian math fuel ent g skew = Some (r, g', ent') ->
  wfl (Uniform.mt g) -> wfl (Uniform.mt g').
Proof.
  intros E H. destruct fuel as [|f]; cbn [Gaussian.Gaussian] in E; [discriminate E|].
  destruct (Gaussian.draw_nonzero (S f) (Fin 0) g) as [[u g1]|] eqn:D1; [|discriminate E].
  destruct (Gaussian.draw_nonzero (S f) (Fin 0) g1) as [[v g2]|] eqn:D2; [|discriminate E].
  assert (H2 : wfl (Uniform.mt g2))
    by (apply (draw_nonzero_wfl _ _ _ _ _ D2), (draw_nonzero_wfl _ _ _ _ _ D1), H).
  destruct (if Gaussian.out_of_range _ then _ else _) as [[n e2]|]; [|discriminate E].
  injection E as _ <- _. exact H2.
Qed.

Lemma d_private_uni (math : MathLib) (floor : bool) (fuel : nat) (ent : entropy) (m : Roll.t)
    (sides r : num) (m' : Roll.t) (ent' : entropy) :
  Roll.d_private math floor fuel ent m sides None = Some (r, m', ent') ->
  Roll.uni m' = snd (Uniform.random (Roll.uni m)).
Proof.
  unfold Roll.d_private. destruct (Uniform.random (Roll.uni m)) as [x u].
  generalize (Scaled.value (Scaled.round_to (Scaled.scale_to (Scaled.create x) (of_Z 1)
                (if floor then math_floor sides else sides)) (Fin 0))).
  intros n E. injection E as _ <- _. reflexivity.
Qed.

Lemma step_wfl (math : MathLib) (fuel : nat) (ent : entropy) (m : Roll.t) (o : op)
    (r : num) (m' : Roll.t) (ent' : entropy) :
  step math fuel ent m o = Some (r, m', ent') ->
  wfl (Uniform.mt (Roll.uni m)) -> wfl (Uniform.mt (Roll.uni m')).
Proof.
  intros E H. destruct o as [|skew|sides skew|skew]; cbn [step] in E.
  - unfold Roll.uniform in E. pose proof (random_wfl _ H) as H1.
    destruct (Uniform.random (Roll.uni m)) as [x u]. injection E as _ <- _. exact H1.
  - unfold Roll.gaussian in E.
    destruct (Gaussian.Gaussian math fuel ent (Roll.uni m) _) as [[[x u] e2]|] eqn:G;
      [|discriminate E].
    injection E as _ <- _. exact (Gaussian_wfl _ _ _ _ _ _ _ _ G H).
  - unfold Roll.d in E. rewrite (d_private_uni _ _ _ _ _ _ _ _ _ E). apply random_wfl, H.
  - unfold Roll.random, Roll.uniform in E. pose proof (random_wfl _ H) as H1.
    destruct (Uniform.random (Roll.uni m)) as [x u]. injection E as _ <- _. exact H1.
Qed.

Lemma run_wfl (math : MathLib) (fuel : nat) (ent : entropy) (m : Roll.t) (ops : list op)
    (rs : list num) (m' : Roll.t) (ent' : entropy) :
  run math fuel ent m ops = Some (rs, m', ent') ->
  wfl (Uniform.mt (Roll.uni m)) -> wfl (Uniform.mt (Roll.uni m')).
Proof.
  revert ent m rs ent'. induction ops as [|o os IH]; intros ent m rs ent' E H; cbn [run] in E.
  - injection E as _ <- _. exact H.
  - destruct (step math fuel ent m o) as [[[r m1] e1]|] eqn:S1; [|discriminate E].
    destruct (run math fuel e1 m1 os) as [[[rs1 m2] e2]|] eqn:R; [|discriminate E].
    injection E as _ <- _. exact (IH _ _ _ _ R (step_wfl _ _ _ _ _ _ _ _ S1 H)).
Qed.

(** Extra: [roll.seed(s)] with a defined, non-null [s] puts the generator of a manager, after any sequence of calls, in exactly the state of a new manager constructed with seed [s]. *)
Theorem roll_seed_restarts (math : MathLib) (fuel : nat) (ent : entropy) (e0 : list Z) (s0 : seed)
    (mh : option num) (ops : list op) (rs : list num) (m' : Roll.t) (ent' : entropy)
    (e : list Z) (s : seed) (mh2 : option num) :
  run math fuel ent (Roll.create e0 s0 mh) ops = Some (rs, m', ent') ->
  resets s = true ->
  Roll.uni (Roll.seed_set e s m') = Roll.uni (Roll.create e s mh2).
Proof.
  intros R Hs. assert (H := run_wfl _ _ _ _ _ _ _ _ R (init_wfl _ _ _ (fresh_wfl s0))).
  destruct s; try discriminate Hs; cbn [Roll.seed_set Roll.uni Roll.create Roll.clearHistory];
    apply reseed_create; try reflexivity; apply H.
Qed.

Lemma step_uniform_some (math : MathLib) (fuel : nat) (ent : entropy) (m : Roll.t) (o : op) :
  no_gauss o = true -> exists r m', step math fuel ent m o = Some (r, m', ent).
Proof.
  destruct o as [|skew|sides skew|skew]; intros H; try discriminate H; cbn [step].
  - destruct (Roll.uniform m) as [r m']. eauto.
  - unfold Roll.d, Roll.d_private. destruct (Uniform.random (Roll.uni m)) as [x u]. eauto.
  - destruct (Roll.random m skew) as [r m']. eauto.
Qed.

Lemma run_uniform_some (math : MathLib) (fuel : nat) (ent : entropy) (m : Roll.t) (ops : list op) :
  forallb no_gauss ops = true -> exists rs m', run math fuel ent m ops = Some (rs, m', ent).
Proof.
  revert m. induction ops as [|o os IH]; intros m H; cbn [run]; [eauto|].
  apply andb_true_iff in H as [H1 H2].
  destruct (step_uniform_some math fuel ent m o H1) as (r & m1 & ->).
  destruct (IH m1 H2) as (rs & m' & ->). eauto.
Qed.

Lemma roll_seed_restarts_witness :
  exists rs m',
    run sample_math 10 (Streams.const []) m5489 ops5 = Some (rs, m', Streams.const []) /\
    resets (SeedNum (of_Z 7)) = true /\
    Roll.uni (Roll.seed_set [] (SeedNum (of_Z 7)) m') = Roll.uni (Roll.create [] (SeedNum (of_Z 7)) None).
Proof.
  destruct (run_uniform_some sample_math 10 (Streams.const []) m5489 ops5 eq_refl) as (rs & m' & R).
  exists rs, m'. split; [exact R|]. split; [reflexivity|].
  exact (roll_seed_restarts sample_math 10 (Streams.const []) [] (SeedNum (of_Z 5489)) None ops5
           rs m' (Streams.const []) [] (SeedNum (of_Z 7)) None R eq_refl).
Defined.



Lemma step_ignores_history (math : MathLib) (fuel : nat) (ent : entropy) (m : Roll.t)
    (h : History.t) (o : op) :
  option_map sview (step math fuel ent m o) =
  option_map sview (step math fuel ent (Roll.mk (Roll.uni m) h) o).
Proof.
  destruct o as [|skew|sides skew|skew]; cbn [step].
  - unfold Roll.uniform. cbn [Roll.uni]. destruct (Uniform.random (Roll.uni m)). reflexivity.
  - unfold Roll.gaussian. cbn [Roll.uni].
    destruct (Gaussian.Gaussian _ _ _ _ _) as [[[x u] e2]|]; reflexivity.
  - unfold Roll.d, Roll.d_private. cbn [Roll.uni].
    destruct (Uniform.random (Roll.uni m)). reflexivity.
  - unfold Roll.random, Roll.uniform. cbn [Roll.uni].
    destruct (Uniform.random (Roll.uni m)). reflexivity.
Qed.

(** Extra: The history never influences sampling: two managers with the same generator and any two histories give the same results, generator states and entropy over any sequence of calls; [clearHistory] and [maxHistory] therefore never change later draws. *)
Theorem sampling_ignores_history (math : MathLib) (fuel : nat) (ent : entropy) (m : Roll.t)
    (h : History.t) (ops : list op) :
  option_map rview (run math fuel ent m ops) =
  option_map rview (run math fuel ent (Roll.mk (Roll.uni m) h) ops).
Proof.
  revert ent m h. induction ops as [|o os IH]; intros ent m h; [reflexivity|].
  cbn [run]. pose proof (step_ignores_history math fuel ent m h o) as S.
  destruct (step math fuel ent m o) as [[[r1 m1] e1]|];
    destruct (step math fuel ent (Roll.mk (Roll.uni m) h) o) as [[[r2 m2] e2]|];
    cbn [option_map sview] in S; try discriminate S; [|reflexivity].
  injection S as -> U ->. specialize (IH e2 m1 (Roll.hist m2)).
  rewrite U in IH. destruct m2 as [u2 h2]. cbn [Roll.uni Roll.hist] in IH.
  destruct (run math fuel e2 m1 os) as [[[rs1 m1'] e1']|];
    destruct (run math fuel e2 (Roll.mk u2 h2) os) as [[[rs2 m2'] e2']|];
    cbn [option_map rview] in IH |- *; try discriminate IH; [|reflexivity].
  injection IH as -> -> ->. reflexivity.
Qed.

(** Extra: [Gaussian] advances the caller's generator by exactly two [random()] draws when both are non-zero, whether or not the result is resampled from a fresh generator. *)
Theorem gaussian_consumes_two_draws (math : MathLib) (fuel : nat) (ent : entropy)
    (g : Uniform.state) (skew : num) :
  strict_eq (fst (Uniform.random g)) (Fin 0) = false ->
  strict_eq (fst (Uniform.random (snd (Uniform.random g)))) (Fin 0) = false ->
  match Gaussian.Gaussian math fuel ent g skew with
  | Some (_, g', _) => g' = snd (Uniform.random (snd (Uniform.random g)))
  | None => True
  end.
Proof.
  intros H1 H2. destruct fuel as [|f]; [exact I|]. cbn [Gaussian.Gaussian].
  assert (D : forall (k : nat) (g0 : Uniform.state),
             strict_eq (fst (Uniform.random g0)) (Fin 0) = false ->
             Gaussian.draw_nonzero (S k) (Fin 0) g0 = Some (fst (Uniform.random g0), snd (Uniform.random g0))).
  { intros k g0 H. cbn [Gaussian.draw_nonzero]. change (strict_eq (Fin 0) (Fin 0)) with true. cbv iota.
    destruct (Uniform.random g0) as [x g1]. cbn [fst snd] in *.
    destruct k; cbn [Gaussian.draw_nonzero]; rewrite H; reflexivity. }
  rewrite (D f g H1), (D f _ H2).
  destruct (if Gaussian.out_of_range _ then _ else _) as [[n e2]|]; reflexivity.
Qed.

Lemma gaussian_consumes_two_draws_witness :
  strict_eq (fst (Uniform.random g5489)) (Fin 0) = false /\
  strict_eq (fst (Uniform.random (snd (Uniform.random g5489)))) (Fin 0) = false /\
  match Gaussian.Gaussian sample_math 3 (Streams.const []) g5489 (Fin 0) with
  | Some (_, g', _) => g' = snd (Uniform.random (snd (Uniform.random g5489)))
  | None => True
  end.
Proof.
  assert (H1 : strict_eq (fst (Uniform.random g5489)) (Fin 0) = false) by (vm_compute; reflexivity).
  assert (H2 : strict_eq (fst (Uniform.random (snd (Uniform.random g5489)))) (Fin 0) = false)
    by (vm_compute; reflexivity).
  split; [exact H1|]. split; [exact H2|].
  exact (gaussian_consumes_two_draws sample_math 3 (Streams.const []) g5489 (Fin 0) H1 H2).
Defined.


Lemma Qfloor_unique (x : Q) (n : Z) :
  (inject_Z n <= x)%Q -> (x < inject_Z (n + 1))%Q -> Qfloor x = n.
Proof.
  intros H1 H2.
  assert (A : (n <= Qfloor x)%Z) by (rewrite <- (Qfloor_Z n); apply Qfloor_resp_le, H1).
  assert (B : (inject_Z (Qfloor x) < inject_Z (n + 1))%Q)
    by (eapply Qle_lt_trans; [apply Qfloor_le|exact H2]).
  rewrite <- Zlt_Qlt in B. lia.
Qed.

Lemma digit_char_spec (d : Z) :
  0 <= d < 10 -> Z.of_nat (nat_of_ascii (digit_char d)) = 48 + d /\ is_digit (digit_char d) = true.
Proof.
  intros H. unfold digit_char. rewrite nat_ascii_embedding by lia. split; [lia|].
  unfold is_digit. rewrite nat_ascii_embedding by lia.
  apply andb_true_iff; split; apply Nat.leb_le; lia.
Qed.

Lemma dv_snoc (l : jstr) (c : ascii) :
  digits_value (l ++ [c]) = 10 * digits_value l + (Z.of_nat (nat_of_ascii c) - 48).
Proof. unfold digits_value. rewrite fold_left_app. reflexivity. Qed.

Lemma digits_aux_spec (f : nat) (n : Z) (acc : jstr) :
  0 < n < 10 ^ Z.of_nat f ->
  exists ds, digits_aux f n acc = ds ++ acc /\ ds <> [] /\ Scaled.all_digits ds = true /\
             digits_value ds = n.
Proof.
  revert n acc. induction f as [|f IH]; intros n acc Hn; [simpl in Hn; lia|].
  cbn [digits_aux].
  destruct (digit_char_spec (n mod 10) ltac:(apply Z.mod_pos_bound; lia)) as [Hv Hd].
  destruct (n <? 10) eqn:E.
  - exists [digit_char (n mod 10)]. split; [reflexivity|]. split; [discriminate|].
    split; [unfold Scaled.all_digits; cbn [forallb]; rewrite Hd; reflexivity|].
    apply Z.ltb_lt in E. unfold digits_value. cbn [fold_left]. rewrite Hv.
    rewrite Z.mod_small by lia. lia.
  - apply Z.ltb_ge in E.
    destruct (IH (n / 10) (digit_char (n mod 10) :: acc)) as (ds & H1 & H2 & H3 & H4).
    { split; [apply Z.div_str_pos; lia|]. apply Z.div_lt_upper_bound; [lia|].
      rewrite Nat2Z.inj_succ, Z.pow_succ_r in Hn by lia. lia. }
    exists (ds ++ [digit_char (n mod 10)]). rewrite H1, <- app_assoc. split; [reflexivity|].
    split; [destruct ds; [contradiction|discriminate]|]. split.
    + unfold Scaled.all_digits in *. rewrite forallb_app, H3. cbn [forallb]. rewrite Hd. reflexivity.
    + rewrite dv_snoc, H4, Hv. pose proof (Z.div_mod n 10). lia.
Qed.

Lemma Z_digits_spec (n : Z) :
  0 < n -> Z_digits n <> [] /\ Scaled.all_digits (Z_digits n) = true /\ digits_value (Z_digits n) = n.
Proof.
  intros Hn. unfold Z_digits.
  destruct (digits_aux_spec (Z.to_nat (Z.log2 n + 1)) n [] ) as (ds & H1 & H2 & H3 & H4).
  - split; [lia|]. rewrite Z2Nat.id by (pose proof (Z.log2_nonneg n); lia).
    apply Z.lt_le_trans with (2 ^ (Z.log2 n + 1)).
    + apply Z.log2_spec in Hn. rewrite <- Z.add_1_r in Hn. lia.
    + apply Z.pow_le_mono_l. lia.
  - rewrite H1, app_nil_r. auto.
Qed.

Lemma take_digits_all (l : jstr) : Scaled.all_digits l = true -> take_digits l = (l, []).
Proof.
  unfold Scaled.all_digits. induction l as [|c r IH]; [reflexivity|]. cbn [forallb take_digits].
  intros H. apply andb_true_iff in H as [A B]. rewrite A, IH by exact B. reflexivity.
Qed.

Lemma scan_digit_head (c : ascii) (r : jstr) :
  is_digit c = true -> scan (c :: r) = scan_unsigned (c :: r).
Proof.
  destruct c as [[] [] [] [] [] [] [] []]; intros H; try discriminate H; reflexivity.
Qed.

Lemma is_prefix_Infinity_digit (c : ascii) (r : jstr) :
  is_digit c = true -> is_prefix (str "Infinity") (c :: r) = false.
Proof.
  destruct c as [[] [] [] [] [] [] [] []]; intros H; try discriminate H; reflexivity.
Qed.

Lemma to_number_digits (ds : jstr) :
  ds <> [] -> Scaled.all_digits ds = true -> to_number ds = of_Z (digits_value ds).
Proof.
  intros Hne Hd. destruct ds as [|c r]; [contradiction|].
  assert (Hc : is_digit c = true)
    by (unfold Scaled.all_digits in Hd; cbn [forallb] in Hd; apply andb_true_iff in Hd; apply Hd).
  unfold to_number. rewrite scan_digit_head by exact Hc.
  unfold scan_unsigned. rewrite is_prefix_Infinity_digit by exact Hc.
  rewrite take_digits_all by exact Hd. cbn [app List.length Z.of_nat].
  rewrite app_nil_r. cbn [scan_exponent].
  unfold of_Z. f_equal. unfold p10. cbn. unfold inject_Z, Qmult. cbn [Qnum Qden].
  rewrite Z.mul_1_r. reflexivity.
Qed.

Lemma to_fixed0_nonneg (a : Q) :
  (0 <= a)%Q -> (a <= inject_Z MAX_SAFE_INTEGER)%Q ->
  to_number (to_fixed (Fin a) 0) = Fin (inject_Z (Qfloor (a + (1 # 2)))).
Proof.
  intros H0 H1. unfold to_fixed.
  replace (Qle_bool (inject_Z (10 ^ 21)) (Qabs a)) with false.
  2:{ symmetry. apply not_true_iff_false. rewrite Qle_bool_iff. intros C.
      rewrite Qabs_pos in C by exact H0.
      assert (X : (inject_Z (10 ^ 21) <= inject_Z MAX_SAFE_INTEGER)%Q) by (eapply Qle_trans; eauto).
      rewrite <- Zle_Qle in X. unfold MAX_SAFE_INTEGER in X. lia. }
  replace (Qlt_bool a 0) with false.
  2:{ symmetry. unfold Qlt_bool. apply negb_false_iff, Qle_bool_iff. exact H0. }
  change (0 =? 0) with true. cbv iota.
  assert (Ep : (Qabs a * p10 0 + (1 # 2) == a + (1 # 2))%Q)
    by (rewrite (Qabs_pos a H0); unfold p10; simpl; ring).
  rewrite (Qfloor_comp _ _ Ep).
  set (n := Qfloor (a + (1 # 2))).
  assert (Hn0 : 0 <= n).
  { unfold n. rewrite <- (Qfloor_Z 0). apply Qfloor_resp_le.
    apply Qle_trans with a; [exact H0|]. rewrite <- (Qplus_0_r a) at 1.
    apply Qplus_le_r. discriminate. }
  assert (Hn1 : n <= MAX_SAFE_INTEGER).
  { assert (A : (inject_Z n < inject_Z (MAX_SAFE_INTEGER + 1))%Q).
    { eapply Qle_lt_trans; [apply Qfloor_le|]. rewrite inject_Z_plus.
      apply Qle_lt_trans with (inject_Z MAX_SAFE_INTEGER + (1 # 2))%Q.
      - apply Qplus_le_compat; [exact H1|apply Qle_refl].
      - apply Qplus_lt_r. reflexivity. }
    rewrite <- Zlt_Qlt in A. lia. }
  destruct (n =? 0) eqn:E.
  - apply Z.eqb_eq in E. rewrite E. reflexivity.
  - apply Z.eqb_neq in E. destruct (Z_digits_spec n ltac:(lia)) as (A & B & C).
    rewrite to_number_digits by assumption. rewrite C.
    apply of_Z_exact. unfold MAX_SAFE_INTEGER in Hn1. lia.
Qed.

Lemma safe_Z (n : Z) : 0 <= n <= MAX_SAFE_INTEGER -> is_safe_integer (Fin (inject_Z n)) = true.
Proof.
  intros H. unfold is_safe_integer, is_integer. rewrite Qfloor_Z.
  apply andb_true_iff. split; [apply Qeq_bool_iff; reflexivity|].
  apply Qle_bool_iff. rewrite Qabs_pos by (change 0%Q with (inject_Z 0); rewrite <- Zle_Qle; lia).
  rewrite <- Zle_Qle. lia.
Qed.

Lemma ensureUint_tail (a : Q) :
  (0 <= a)%Q -> (a <= inject_Z MAX_SAFE_INTEGER)%Q ->
  exists r,
    (let num2 := if negb (is_integer (Fin a)) then to_number (to_fixed (Fin a) 0) else Fin a in
     if negb (is_safe_integer num2) then of_Z (-1) else num2) = Fin r /\
    (r == inject_Z (Qfloor (Qabs a + (1 # 2))))%Q.
Proof.
  intros H0 H1.
  assert (Ef : Qfloor (Qabs a + (1 # 2)) = Qfloor (a + (1 # 2)))
    by (apply Qfloor_comp; rewrite (Qabs_pos a H0); reflexivity).
  rewrite Ef. cbv zeta.
  destruct (is_integer (Fin a)) eqn:Hi; cbn [negb].
  - assert (Ea : (a == inject_Z (Qfloor a))%Q) by (apply Qeq_bool_iff; exact Hi).
    replace (is_safe_integer (Fin a)) with true.
    2:{ symmetry. unfold is_safe_integer. rewrite Hi. apply Qle_bool_iff.
        rewrite Qabs_pos by exact H0. exact H1. }
    exists a. split; [reflexivity|].
    assert (F : Qfloor (a + (1 # 2)) = Qfloor a).
    { apply Qfloor_unique.
      - apply Qle_trans with a; [apply Qfloor_le|].
        rewrite <- (Qplus_0_r a) at 1. apply Qplus_le_r. discriminate.
      - rewrite inject_Z_plus, <- Ea. apply Qplus_lt_r. reflexivity. }
    rewrite F. exact Ea.
  - rewrite to_fixed0_nonneg by assumption. rewrite safe_Z.
    + exists (inject_Z (Qfloor (a + (1 # 2)))). split; reflexivity.
    + split.
      * rewrite <- (Qfloor_Z 0). apply Qfloor_resp_le.
        apply Qle_trans with a; [exact H0|]. rewrite <- (Qplus_0_r a) at 1.
        apply Qplus_le_r. discriminate.
      * assert (A : (inject_Z (Qfloor (a + (1 # 2))) < inject_Z (MAX_SAFE_INTEGER + 1))%Q).
        { eapply Qle_lt_trans; [apply Qfloor_le|]. rewrite inject_Z_plus.
          apply Qle_lt_trans with (inject_Z MAX_SAFE_INTEGER + (1 # 2))%Q.
      - apply Qplus_le_compat; [exact H1|apply Qle_refl].
      - apply Qplus_lt_r. reflexivity. }
        rewrite <- Zlt_Qlt in A. lia.
Qed.

(** Extra: [ensureUint] on a number of magnitude at most [MAX_SAFE_INTEGER] returns its absolute value rounded to the nearest integer, halves rounded up. *)
Theorem ensureUint_rounds_magnitude (q : Q) :
  (Qabs q <= inject_Z MAX_SAFE_INTEGER)%Q ->
  exists r, Uniform.ensureUint (Fin q) = Fin r /\ (r == inject_Z (Qfloor (Qabs q + (1 # 2))))%Q.
Proof.
  intros H. unfold Uniform.ensureUint. rewrite of_Z_MAX.
  replace (js_gt (Fin q) (Fin (inject_Z MAX_SAFE_INTEGER))) with false.
  2:{ symmetry. unfold js_gt, js_lt, Qlt_bool. apply negb_false_iff.
      apply Qle_bool_iff. eapply Qle_trans; [apply Qle_Qabs | exact H]. }
  destruct (js_lt (Fin q) (Fin 0)) eqn:Hs.
  - cbn [math_abs]. destruct (ensureUint_tail (Qabs q) (Qabs_nonneg q) H) as (r & E & Er).
    assert (X : Qabs (Qabs q) = Qabs q)
      by (destruct q as [n d]; unfold Qabs; cbn [Qnum Qden]; rewrite Z.abs_idemp; reflexivity).
    exists r. split; [exact E|]. rewrite Er, X. reflexivity.
  - assert (H0 : (0 <= q)%Q).
    { unfold js_lt, Qlt_bool in Hs. apply negb_false_iff, Qle_bool_iff in Hs. exact Hs. }
    destruct (ensureUint_tail q H0 ltac:(rewrite <- (Qabs_pos q H0); exact H)) as (r & E & Er).
    exists r. split; [exact E|]. exact Er.
Qed.

Lemma ensureUint_rounds_magnitude_witness :
  (Qabs (-5 # 2) <= inject_Z MAX_SAFE_INTEGER)%Q /\
  exists r, Uniform.ensureUint (Fin (-5 # 2)) = Fin r /\
            (r == inject_Z (Qfloor (Qabs (-5 # 2) + (1 # 2))))%Q.
Proof.
  assert (H : (Qabs (-5 # 2) <= inject_Z MAX_SAFE_INTEGER)%Q) by (vm_compute; discriminate).
  split; [exact H|]. exact (ensureUint_rounds_magnitude (-5 # 2) H).
Defined.



Lemma round_mag_nonneg (A B : Z) : 0 <= A -> 0 < B -> 0 <= fst (round_mag A B).
Proof.
  intros HA HB. unfold round_mag. cbv zeta. cbn [fst].
  set (e := Z.max (flog2 A B - 52) (-1074)).
  set (nn0 := if e >=? 0 then A else A * 2 ^ (- e)).
  set (dd := if e >=? 0 then B * 2 ^ e else B).
  assert (Hn : 0 <= nn0) by (unfold nn0; destruct (e >=? 0); [lia|]; apply Z.mul_nonneg_nonneg; [lia|apply Z.pow_nonneg; lia]).
  assert (Hd : 0 < dd).
  { unfold dd. destruct (e >=? 0) eqn:E; [|lia]. rewrite Z.geb_leb in E. apply Z.leb_le in E.
    apply Z.mul_pos_pos; [lia|apply Z.pow_pos_nonneg; lia]. }
  assert (H0 : 0 <= nn0 / dd) by (apply Z.div_pos; lia).
  destruct (dd <? 2 * (nn0 mod dd)); [lia|].
  destruct (2 * (nn0 mod dd) =? dd); [destruct (Z.odd (nn0 / dd))|]; lia.
Qed.

Lemma two_pow_Q_nonneg (e : Z) : (0 <= two_pow_Q e)%Q.
Proof.
  unfold two_pow_Q. destruct (e >=? 0).
  - change 0%Q with (inject_Z 0). rewrite <- Zle_Qle. apply Z.pow_nonneg. lia.
  - discriminate.
Qed.

Lemma round_double_nn (q : Q) : 0 <= Qnum q -> nn (round_double q).
Proof.
  intros Hq. unfold round_double.
  destruct (Z.abs (Qnum q) =? 0); [cbn; apply Qle_refl|].
  pose proof (round_mag_nonneg (Z.abs (Qnum q)) (Z.pos (Qden q)) ltac:(lia) ltac:(lia)) as Hm.
  destruct (round_mag (Z.abs (Qnum q)) (Z.pos (Qden q))) as [m e]. cbn [fst] in Hm.
  replace (Qnum q <? 0) with false by (symmetry; apply Z.ltb_ge; exact Hq).
  destruct ((e >=? 0) && (2 ^ 1024 <=? m * 2 ^ e)); [exact I|].
  cbn [nn]. rewrite Qred_correct. apply Qmult_le_0_compat; [|apply two_pow_Q_nonneg].
  change 0%Q with (inject_Z 0). rewrite <- Zle_Qle. exact Hm.
Qed.

Lemma take_digits_digits (l : jstr) : Scaled.all_digits (fst (take_digits l)) = true.
Proof.
  unfold Scaled.all_digits. induction l as [|c r IH]; [reflexivity|]. cbn [take_digits].
  destruct (is_digit c) eqn:Hc; [|reflexivity].
  destruct (take_digits r) as [ds r'] eqn:E. cbn [fst] in *. cbn [forallb]. rewrite Hc, IH. reflexivity.
Qed.

Lemma p10_num_nonneg (x : Z) : 0 <= Qnum (p10 x).
Proof. unfold p10. destruct (x >=? 0); cbn [Qnum inject_Z]; [apply Z.pow_nonneg; lia|lia]. Qed.

Lemma scan_unsigned_nn (l : jstr) (v : num) (r : jstr) :
  scan_unsigned l = Some (v, r) -> nn v.
Proof.
  unfold scan_unsigned. destruct (is_prefix (str "Infinity") l).
  { intros E. injection E as <- _. exact I. }
  pose proof (take_digits_digits l) as H1.
  destruct (take_digits l) as [d1 r1]. cbn [fst] in H1.
  assert (H2 : Scaled.all_digits (fst (match r1 with
                                        | "."%char :: r0 => take_digits r0
                                        | _ => ([], r1) end)) = true).
  { destruct r1 as [|c r0]; [reflexivity|].
    destruct (ascii_dec c "."%char) as [->|Hc]; [apply take_digits_digits|].
    destruct c as [[] [] [] [] [] [] [] []]; try reflexivity; apply take_digits_digits. }
  destruct (match r1 with "."%char :: r0 => take_digits r0 | _ => ([], r1) end) as [d2 r2].
  cbn [fst] in H2.
  assert (H3 : Scaled.all_digits (d1 ++ d2) = true)
    by (unfold Scaled.all_digits in *; rewrite forallb_app, H1, H2; reflexivity).
  destruct (d1 ++ d2) as [|c ds]; [discriminate|].
  destruct (scan_exponent r2) as [ex r3]. intros E. injection E as <- _.
  apply round_double_nn. cbn [Qmult Qnum inject_Z].
  apply Z.mul_nonneg_nonneg; [apply (dv_bound _ H3)|apply p10_num_nonneg].
Qed.

Lemma to_number_nn (l : jstr) : digit_head l = true -> nn (to_number l).
Proof.
  intros H. destruct l as [|c r]; [cbn; apply Qle_refl|].
  cbn [digit_head] in H. unfold to_number. rewrite scan_digit_head by exact H.
  destruct (scan_unsigned (c :: r)) as [[v r']|] eqn:E; [|exact I].
  destruct r'; [|exact I]. exact (scan_unsigned_nn _ _ _ E).
Qed.

Lemma digits_aux_head (f : nat) (n : Z) (acc : jstr) :
  digit_head acc = true -> acc <> [] -> digit_head (digits_aux f n acc) = true /\ digits_aux f n acc <> [].
Proof.
  revert n acc. induction f as [|f IH]; intros n acc H1 H2; [auto|].
  cbn [digits_aux].
  assert (Hd : is_digit (digit_char (n mod 10)) = true)
    by (apply digit_char_spec, Z.mod_pos_bound; lia).
  destruct (n <? 10); [split; [exact Hd|discriminate]|].
  apply IH; [exact Hd|discriminate].
Qed.

Lemma Z_digits_head (n : Z) : digit_head (Z_digits n) = true /\ Z_digits n <> [].
Proof.
  unfold Z_digits. pose proof (Z.log2_nonneg n).
  replace (Z.to_nat (Z.log2 n + 1)) with (S (Z.to_nat (Z.log2 n))) by lia.
  cbn [digits_aux].
  assert (Hd : is_digit (digit_char (n mod 10)) = true)
    by (apply digit_char_spec, Z.mod_pos_bound; lia).
  destruct (n <? 10); [split; [exact Hd|discriminate]|].
  apply digits_aux_head; [exact Hd|discriminate].
Qed.

Lemma render_head (s n k : Z) : digit_head (render s n k) = true.
Proof.
  unfold render. destruct (Z_digits_head s) as [H1 H2].
  destruct (Z_digits s) as [|c r]; [contradiction|]. cbn [digit_head] in H1.
  destruct ((k <=? n) && (n <=? 21)); [exact H1|].
  destruct ((0 <? n) && (n <=? 21)) eqn:E.
  - apply andb_true_iff in E as [E _]. apply Z.ltb_lt in E.
    replace (Z.to_nat n) with (S (Z.to_nat (n - 1))) by lia. exact H1.
  - destruct ((-6 <? n) && (n <=? 0)); [reflexivity|exact H1].
Qed.

Lemma to_string_nonneg_head (q : Q) : (0 <= q)%Q -> digit_head (to_string (Fin q)) = true.
Proof.
  intros H. unfold to_string. destruct (Qeq_bool q 0); [reflexivity|].
  replace (Qlt_bool q 0) with false
    by (symmetry; unfold Qlt_bool; apply negb_false_iff, Qle_bool_iff; exact H).
  destruct (decimal_of q) as [[s n] k]. apply render_head.
Qed.

Lemma to_fixed_nonneg_head (a : Q) : (0 <= a)%Q -> digit_head (to_fixed (Fin a) 0) = true.
Proof.
  intros H. unfold to_fixed.
  destruct (Qle_bool (inject_Z (10 ^ 21)) (Qabs a)); [apply to_string_nonneg_head, H|].
  replace (Qlt_bool a 0) with false
    by (symmetry; unfold Qlt_bool; apply negb_false_iff, Qle_bool_iff; exact H).
  change (0 =? 0) with true. cbv iota zeta.
  destruct (_ =? 0); [reflexivity|apply Z_digits_head].
Qed.

Lemma ensureUint_cases (x : num) :
  Uniform.ensureUint x = of_Z (-1) \/ valid_uint (Uniform.ensureUint x) = true.
Proof.
  unfold Uniform.ensureUint.
  destruct (js_gt x (of_Z MAX_SAFE_INTEGER)); [left; reflexivity|].
  assert (H1 : nn (if js_lt x (Fin 0) then math_abs x else x)).
  { destruct x as [q| | |]; cbn [js_lt math_abs]; try exact I.
    destruct (Qlt_bool q 0) eqn:E; cbn [nn]; [apply Qabs_nonneg|].
    unfold Qlt_bool in E. apply negb_false_iff, Qle_bool_iff in E. exact E. }
  set (num1 := if js_lt x (Fin 0) then math_abs x else x) in *.
  assert (H2 : nn (if negb (is_integer num1) then to_number (to_fixed num1 0) else num1)).
  { destruct (is_integer num1); [exact H1|]. cbn [negb].
    destruct num1 as [a| | |]; [apply to_number_nn, to_fixed_nonneg_head, H1| | |];
      [vm_compute; exact I|vm_compute; exact I|contradiction]. }
  set (num2 := if negb (is_integer num1) then to_number (to_fixed num1 0) else num1) in *.
  destruct (is_safe_integer num2) eqn:Hs; cbn [negb]; [right|left; reflexivity].
  unfold valid_uint. rewrite Hs. destruct num2 as [b| | |]; try discriminate Hs.
  unfold js_ge, js_le. cbn [is_nan negb andb js_lt]. unfold Qlt_bool.
  rewrite negb_involutive. apply Qle_bool_iff. exact H2.
Qed.


Lemma valid_uint_of_Z (z : Z) : 0 <= z <= MAX_SAFE_INTEGER -> valid_uint (of_Z z) = true.
Proof.
  intros H. rewrite of_Z_exact by (unfold MAX_SAFE_INTEGER in H; lia).
  unfold valid_uint. rewrite safe_Z by exact H. change (Fin 0) with (Fin (inject_Z 0)).
  rewrite js_ge_Z. apply Z.leb_le. lia.
Qed.

Lemma ensureUint_ge0_valid (x : num) :
  js_ge (Uniform.ensureUint x) (Fin 0) = true -> valid_uint (Uniform.ensureUint x) = true.
Proof.
  intros H. destruct (ensureUint_cases x) as [E|E]; [|exact E].
  rewrite E in H. rewrite of_Z_minus_one in H. discriminate H.
Qed.

Lemma ensured_valid (ys : list num) :
  existsb (num_eqb (of_Z (-1))) (map Uniform.ensureUint ys) = false ->
  forallb valid_uint (map Uniform.ensureUint ys) = true.
Proof.
  induction ys as [|y ys IH]; [reflexivity|]. cbn [map existsb forallb].
  intros H. apply orb_false_iff in H as [H1 H2]. rewrite IH by exact H2.
  destruct (ensureUint_cases y) as [E|E]; [|rewrite E; reflexivity].
  rewrite E in H1. rewrite of_Z_minus_one in H1. vm_compute in H1. discriminate H1.
Qed.

Lemma map_ensure_valid (ss : list num) :
  forallb valid_uint ss = true -> map Uniform.ensureUint ss = ss.
Proof.
  induction ss as [|x ss IH]; [reflexivity|]. cbn [forallb map].
  intros H. apply andb_true_iff in H as [H1 H2]. rewrite ensureUint_valid, IH; auto.
Qed.

Lemma existsb_valid (ss : list num) :
  forallb valid_uint ss = true -> existsb (num_eqb (of_Z (-1))) ss = false.
Proof.
  induction ss as [|x ss IH]; [reflexivity|]. cbn [forallb existsb].
  intros H. apply andb_true_iff in H as [H1 H2]. rewrite valid_uint_not_minus_one, IH; auto.
Qed.

Lemma forallb_is_num_map (ss : list num) : forallb Uniform.is_num (map VNum ss) = true.
Proof. induction ss; cbn; auto. Qed.

Lemma num_of_map (ss : list num) : map Uniform.num_of_jsval (map VNum ss) = ss.
Proof. induction ss; cbn; congruence. Qed.

(** Re-initialising with a valid array [ss] recorded as the seed. *)
Lemma init_valid_array (e' : list Z) (ss : list num) (st : Uniform.state) :
  ss <> [] -> forallb valid_uint ss = true ->
  Uniform.init e' (SeedArray (map VNum ss)) st =
  Uniform.withArray ss (Uniform.mk (SeedArray (map VNum ss)) (Uniform.mt st) (Uniform.mti st)).
Proof.
  intros Hne Hv. cbn delta [Uniform.init] iota beta zeta.
  rewrite forallb_is_num_map, num_of_map. unfold Uniform.init_array.
  destruct ss as [|x r]; [contradiction|].
  rewrite (map_ensure_valid _ Hv), (existsb_valid _ Hv). reflexivity.
Qed.

Lemma crypto_valid (e : list Z) :
  crypto_ok e = true -> map of_Z e <> [] /\ forallb valid_uint (map of_Z e) = true.
Proof.
  unfold crypto_ok. intros H. apply andb_true_iff in H as [H1 H2]. split.
  - destruct e; [discriminate H1|discriminate].
  - induction e as [|z e IH]; [reflexivity|]. cbn [forallb map] in *.
    apply andb_true_iff in H2 as [A B]. apply andb_true_iff in A as [A1 A2].
    apply Z.leb_le in A1. apply Z.leb_le in A2.
    rewrite valid_uint_of_Z by lia. cbn [andb].
    destruct e as [|z' e']; [reflexivity|]. apply IH; [reflexivity|exact B].
Qed.

Lemma withInt_seed (x : num) (st : Uniform.state) :
  Uniform.st_seed (Uniform.withInt x st) = Uniform.st_seed st.
Proof. reflexivity. Qed.

Lemma withArray_seed (v : list num) (st : Uniform.state) :
  Uniform.st_seed (Uniform.withArray v st) = Uniform.st_seed st.
Proof.
  unfold Uniform.withArray. destruct (Uniform.withArray_loop1 _ _ _ _ _) as [mt1 i]. reflexivity.
Qed.

Lemma crypto_roundtrip (e e' : list Z) (s0 : seed) :
  crypto_ok e = true ->
  Uniform.create e' (Uniform.st_seed (Uniform.withCrypto e (Uniform.fresh s0))) =
  Uniform.withCrypto e (Uniform.fresh s0).
Proof.
  intros H. destruct (crypto_valid e H) as [Hne Hv].
  unfold Uniform.withCrypto at 1. rewrite withArray_seed. cbn [Uniform.st_seed].
  replace (map (fun z => VNum (of_Z z)) e) with (map VNum (map of_Z e)) by (rewrite map_map; reflexivity).
  unfold Uniform.create. rewrite init_valid_array by assumption.
  unfold Uniform.withCrypto. rewrite map_map. reflexivity.
Qed.

Lemma array_roundtrip (e e' : list Z) (ys : list num) (s0 : seed) :
  crypto_ok e = true ->
  Uniform.create e' (Uniform.st_seed (Uniform.init_array e ys (Uniform.fresh s0))) =
  Uniform.init_array e ys (Uniform.fresh s0).
Proof.
  intros H. unfold Uniform.init_array. destruct ys as [|y ys']; [apply crypto_roundtrip, H|].
  destruct (existsb (num_eqb (of_Z (-1))) (map Uniform.ensureUint (y :: ys'))) eqn:X;
    [apply crypto_roundtrip, H|].
  rewrite withArray_seed. cbn [Uniform.st_seed]. unfold Uniform.create.
  rewrite init_valid_array; [reflexivity|discriminate|apply ensured_valid, X].
Qed.

(** Extra: Reading back the seed of a generator and constructing a new generator with it gives the same state, when the random seed array, if any is drawn, is non-empty and safe. *)
Theorem seed_roundtrip (e e' : list Z) (s : seed) :
  crypto_ok e = true ->
  Uniform.create e' (Uniform.st_seed (Uniform.create e s)) = Uniform.create e s.
Proof.
  intros H. unfold Uniform.create at 2 3.
  destruct s as [x|xs|xs| | |]; cbn delta [Uniform.init] iota beta zeta.
  - destruct (js_ge (Uniform.ensureUint x) (Fin 0)) eqn:G; [|apply crypto_roundtrip, H].
    rewrite withInt_seed. cbn [Uniform.st_seed]. unfold Uniform.create.
    cbn delta [Uniform.init] iota beta zeta.
    rewrite (ensureUint_valid _ (ensureUint_ge0_valid _ G)), G. reflexivity.
  - destruct (forallb Uniform.is_num xs); [apply array_roundtrip, H|apply crypto_roundtrip, H].
  - apply array_roundtrip, H.
  - apply crypto_roundtrip, H.
  - apply crypto_roundtrip, H.
  - apply crypto_roundtrip, H.
Qed.

Lemma seed_roundtrip_witness :
  crypto_ok [7; 11] = true /\
  Uniform.create [] (Uniform.st_seed (Uniform.create [7; 11] (SeedNum (Fin (5 # 2))))) =
  Uniform.create [7; 11] (SeedNum (Fin (5 # 2))).
Proof.
  assert (H : crypto_ok [7; 11] = true) by reflexivity.
  split; [exact H|]. exact (seed_roundtrip [7; 11] [] (SeedNum (Fin (5 # 2))) H).
Defined.

(** Extra: [ensureUint] always returns [-1] or a safe non-negative integer. *)
Theorem ensureUint_range (x : num) :
  Uniform.ensureUint x = of_Z (-1) \/ valid_uint (Uniform.ensureUint x) = true.
Proof. exact (ensureUint_cases x). Qed.

End Coverage.
